(** * Picovoice screening questions: rain_probability.c and most_freq_words.c

    A shallow embedding of the two C programs of the repository and the
    properties their specification states about them.

    - [Rain]  embeds [prob_mass_func] and [prob_rain_more_than_n]
      (rain_probability.c).  Array accesses go through bounds-checked loads
      and stores, so an access outside the array is a [Fault] naming the
      access.  The arithmetic on C [float]s is a parameter of the model (the
      class [Arith]): every statement that is decided by the control flow and
      the indices holds for any arithmetic, among them IEEE binary32 itself;
      the statements about exact probabilities are proved for arithmetic that
      obeys the ring laws, such as the rationals.
    - [Words] embeds [djb2_hash], [add_word], [compare_by_frequency],
      [find_frequent_words] and the argument check of [main]
      (most_freq_words.c). *)

From Stdlib Require Import ZArith QArith Qcanon Ring Lia.
From Stdlib Require Import Floats.SpecFloat.
From Stdlib Require Import Ascii String Sorted.
From stdpp Require Import base option list strings.

#[local] Open Scope nat_scope.

(** ** Results of code that can leave the defined behaviour of C

    A computation returns a value or stops at a fault: an access outside an
    array, an overflow of a signed integer, a use of an indeterminate value.
    The type of faults is a parameter; each program has its own. *)

Inductive result (E A : Type) : Type :=
| Ok (a : A)
| Fault (e : E).
Arguments Ok {E A} a.
Arguments Fault {E A} e.

Definition bind {E A B} (r : result E A) (k : A -> result E B) : result E B :=
  match r with
  | Ok a => k a
  | Fault e => Fault e
  end.

Notation "x <- r ;; k" := (bind r (fun x => k))
  (at level 100, r at next level, right associativity, only parsing).

(** [for_loop idx body s] runs [body i] for the indices [idx] in order,
    threading the state and stopping at the first fault. *)
Fixpoint for_loop {E S} (idx : list nat) (body : nat -> S -> result E S) (s : S)
  : result E S :=
  match idx with
  | [] => Ok s
  | i :: idx' => s' <- body i s;; for_loop idx' body s'
  end.

(** * rain_probability.c *)

Module Rain.

(** The two arrays of rain_probability.c; a fault names the array and the
    index of the access that left it. *)
Inductive fault : Type :=
| P_out_of_bounds (i : nat)
| Pmf_out_of_bounds (i : nat).

(** The operations the code applies to [float]s.  [zero] and [one] are the
    values of the literals [0.0], [1.0] and of the [int] constant [1] in
    [1 - p[i]] after their conversion to [float]. *)
Class Arith (F : Type) : Type := {
  zero : F;
  one : F;
  add : F -> F -> F;
  sub : F -> F -> F;
  mul : F -> F -> F
}.

Definition DAYSPERYEAR : nat := 365.

Section Code.
Context {F : Type} `{Arith F}.

(** [p[i]]: a read of the caller's array of probabilities. *)
Definition load_p (p : list F) (i : nat) : result fault F :=
  match p !! i with
  | Some x => Ok x
  | None => Fault (P_out_of_bounds i)
  end.

(** [pmf[i]] as an rvalue. *)
Definition load (pmf : list F) (i : nat) : result fault F :=
  match pmf !! i with
  | Some x => Ok x
  | None => Fault (Pmf_out_of_bounds i)
  end.

(** [pmf[i] = x]. *)
Definition store (pmf : list F) (i : nat) (x : F) : result fault (list F) :=
  if decide (i < length pmf) then Ok (<[i := x]> pmf)
  else Fault (Pmf_out_of_bounds i).

(** Line 50, the body of the loop over [j]:
    [pmf[j] = p[i] * pmf[j-1] + (1 - p[i]) * pmf[j]]. *)
Definition convolve_at (p : list F) (i j : nat) (pmf : list F)
  : result fault (list F) :=
  pi <- load_p p i;;
  a <- load pmf (j - 1);;
  pi' <- load_p p i;;
  b <- load pmf j;;
  store pmf j (add (mul pi a) (mul (sub one pi') b)).

(** Lines 48-52, the body of the loop over [i]. *)
Definition fold_day (p : list F) (i : nat) (pmf : list F)
  : result fault (list F) :=
  pi <- load_p p i;;
  a <- load pmf (i - 1);;
  pmf <- store pmf i (mul pi a);;
  (* for (int j = i - 1; j > 0; j--) *)
  pmf <- for_loop (rev (seq 1 (i - 1))) (convolve_at p i) pmf;;
  pi <- load_p p i;;
  a <- load pmf 0;;
  store pmf 0 (mul (sub one pi) a).

(** Lines 44-54.  The loop runs [i] from 1 to [DAYSPERYEAR] inclusive. *)
Definition prob_mass_func (p pmf : list F) : result fault (list F) :=
  pmf <- store pmf 0 one;;
  for_loop (seq 1 DAYSPERYEAR) (fold_day p) pmf.

(** Lines 62-65: [float pmf[DAYSPERYEAR + 1]] and the loop that zeroes it.
    The array starts with indeterminate contents, here [junk]. *)
Definition zero_pmf (junk : list F) : result fault (list F) :=
  for_loop (seq 0 (DAYSPERYEAR + 1)) (fun i pmf => store pmf i zero) junk.

(** Lines 71-74: [probability += pmf[k]] for [k = n + 1 .. DAYSPERYEAR]. *)
Definition tail_sum (pmf : list F) (n : nat) : result fault F :=
  for_loop (seq (n + 1) (DAYSPERYEAR - n))
    (fun k probability => x <- load pmf k;; Ok (add probability x)) zero.

(** Lines 56-77.  [n] is a C [int]. *)
Definition prob_rain_more_than_n (p : list F) (n : Z) : result fault F :=
  if ((n <? 0) || (n >=? Z.of_nat DAYSPERYEAR))%Z then Ok zero
  else
    pmf <- zero_pmf (replicate (DAYSPERYEAR + 1) zero);;
    pmf <- prob_mass_func p pmf;;
    tail_sum pmf (Z.to_nat n).
End Code.

(** *** Arithmetic instances *)

(** Exact arithmetic on the rationals (in canonical form, so that equal
    numbers are equal terms). *)
#[export] Instance Qc_arith : Arith Qc :=
  {| zero := 0%Qc; one := 1%Qc; add := Qcplus; sub := Qcminus; mul := Qcmult |}.

(** The arithmetic of the C [float]: IEEE 754 binary32 (24 bits of precision,
    maximal exponent 128), rounding to nearest even, every operation rounded
    to [float]. *)
Definition binary32 : Type := spec_float.

#[export] Instance binary32_arith : Arith binary32 :=
  {| zero := S754_zero false;
     one := SFone 24 128;
     add := SFadd 24 128;
     sub := SFsub 24 128;
     mul := SFmul 24 128 |}.

(** Inputs used in examples: a year in which every day has probability 1/2,
    and two years that differ on January 1 only (certain rain against no
    rain) and are dry on every other day. *)
Definition every_day_half : list Qc := replicate DAYSPERYEAR (Q2Qc (1 # 2)).
Definition rain_on_jan_1_only : list Qc := 1%Qc :: replicate 364 0%Qc.
Definition never_rain : list Qc := replicate DAYSPERYEAR 0%Qc.

(** *** The Poisson binomial distribution, from first principles

    These definitions follow the specification, not the code: an outcome is
    one truth value per trial, its probability is the product over the trials
    of [p] (success) or [1 - p] (failure), and the probability of an event on
    the number of successes is the sum over the outcomes in the event. *)
Section Distribution.
Context {F : Type} `{Arith F}.

Definition sum_list (l : list F) : F := foldr add zero l.

Fixpoint outcomes (d : nat) : list (list bool) :=
  match d with
  | 0 => [[]]
  | S d' => map (cons true) (outcomes d') ++ map (cons false) (outcomes d')
  end.

Fixpoint outcome_prob (ps : list F) (w : list bool) : F :=
  match ps, w with
  | q :: ps', b :: w' =>
      mul (if b then q else sub one q) (outcome_prob ps' w')
  | _, _ => one
  end.

Fixpoint successes (w : list bool) : nat :=
  match w with
  | [] => 0
  | b :: w' => (if b then 1 else 0) + successes w'
  end.

Definition prob_event (ps : list F) (E : nat -> bool) : F :=
  sum_list (map (outcome_prob ps)
                (List.filter (fun w => E (successes w)) (outcomes (length ps)))).

(** P(S = k) and P(S > n) for the trials [ps]. *)
Definition pmf_exact (ps : list F) (k : nat) : F :=
  prob_event ps (fun s => s =? k).

Definition tail_exact (ps : list F) (n : nat) : F :=
  prob_event ps (fun s => n <? s).

(** What one pass of the loop over [i] leaves in the array, in closed form:
    the value of every cell in terms of the cells before the pass. *)
Definition day_update (q : F) (i : nat) (old : list F) : list F :=
  imap (fun j x =>
          if j =? 0 then mul (sub one q) x
          else if j <? i then add (mul q (nth (j - 1) old zero)) (mul (sub one q) x)
          else if j =? i then mul q (nth (j - 1) old zero)
          else x) old.

(** The array on which the loop over the days starts: zeroed, then
    [pmf[0] = 1.0]. *)
Definition pmf_start : list F := <[0 := one]> (replicate (DAYSPERYEAR + 1) zero).

(** The array after the passes for the probabilities [qs], the first of them
    being pass number [i]. *)
Fixpoint fold_days (i : nat) (qs : list F) (pmf : list F) : list F :=
  match qs with
  | [] => pmf
  | q :: qs' => fold_days (S i) qs' (day_update q i pmf)
  end.
End Distribution.

End Rain.

(** * most_freq_words.c *)

Module Words.

Definition HASH_TABLE_SIZE : Z := 10000%Z.
Definition WORD_BUFFER_SIZE : nat := 150.
Definition INT_MAX : Z := (2 ^ 31 - 1)%Z.

(** What the C standard leaves undefined and this program can reach, or is
    kept from reaching by a check. *)
Inductive fault : Type :=
| Signed_overflow                (* [node->count++] at [INT_MAX] *)
| Hash_table_overrun (i : nat)   (* [hash_table[i]] outside the table *)
| Word_buffer_overrun (i : nat)  (* [word_buffer[i]] outside the buffer *)
| Unterminated_string            (* a string read past the end of its array *)
| Word_list_overrun (i : nat)    (* [word_linked_list[i]] outside the array *)
| Result_overrun (i : nat)       (* [result[i]] outside the allocated block *)
| Indeterminate_read (i : nat).  (* [frequent_words[i]] was never written *)

(** [struct WordFreqNode]; the [next] pointer of a node is the rest of the
    list that holds it. *)
Record WordFreqNode : Type := { word : list ascii; count : Z }.

(** *** The hash table (lines 49-97) *)

(** Arithmetic on [unsigned int] wraps around at 2^32. *)
Definition wrap32 (x : Z) : Z := (x mod 2 ^ 32)%Z.

(** Line 54: [hash = ((hash << 5) + hash) + c].  For the characters that the
    program puts into words (letters and the apostrophe, all below 128) the
    [int c] read from the string is the character code. *)
Definition djb2_step (hash : Z) (c : ascii) : Z :=
  wrap32 (wrap32 (wrap32 (Z.shiftl hash 5) + hash) + Z.of_N (N_of_ascii c))%Z.

Definition djb2_hash (w : list ascii) : Z :=
  (fold_left djb2_step w 5381 mod HASH_TABLE_SIZE)%Z.

Definition create_WordFreqNode (w : list ascii) : WordFreqNode :=
  {| word := w; count := 1%Z |}.

(** Lines 78-84, the walk along a chain.  [None]: no node holds the word.
    [strcmp(..) == 0] is equality of the strings. *)
Fixpoint count_up (w : list ascii) (chain : list WordFreqNode)
  : option (result fault (list WordFreqNode)) :=
  match chain with
  | [] => None
  | node :: next =>
      if bool_decide (word node = w) then
        Some (if (count node <? INT_MAX)%Z
              then Ok ({| word := word node; count := (count node + 1)%Z |} :: next)
              else Fault Signed_overflow)
      else
        match count_up w next with
        | Some r => Some (next' <- r;; Ok (node :: next'))
        | None => None
        end
  end.

(** Lines 73-90. *)
Definition add_word (table : list (list WordFreqNode)) (w : list ascii)
  : result fault (list (list WordFreqNode)) :=
  let search_key := Z.to_nat (djb2_hash w) in
  match table !! search_key with
  | None => Fault (Hash_table_overrun search_key)
  | Some chain =>
      match count_up w chain with
      | Some r => chain' <- r;; Ok (<[search_key := chain']> table)
      | None => Ok (<[search_key := create_WordFreqNode w :: chain]> table)
      end
  end.

(** Line 96.  Counts lie between 1 and [INT_MAX], so the difference of two of
    them is an [int]. *)
Definition compare_by_frequency (a b : WordFreqNode) : Z := (count b - count a)%Z.

(** *** Characters (ctype.h in the "C" locale, which the program never
    changes) *)

Definition isupper (c : ascii) : bool :=
  ((65 <=? N_of_ascii c) && (N_of_ascii c <=? 90))%N.
Definition islower (c : ascii) : bool :=
  ((97 <=? N_of_ascii c) && (N_of_ascii c <=? 122))%N.
Definition isalpha (c : ascii) : bool := isupper c || islower c.
Definition tolower (c : ascii) : ascii :=
  if isupper c then ascii_of_N (N_of_ascii c + 32) else c.

Definition NUL : ascii := Ascii.zero.
Definition apostrophe : ascii := "'"%char.

(** *** Reading the file (lines 127-156) *)

(** The local variables of the reading loop. *)
Record reader : Type := {
  hash_table : list (list WordFreqNode);
  word_buffer : list ascii;
  pos : nat
}.

(** [word_buffer[i] = c]. *)
Definition store_char (buf : list ascii) (i : nat) (c : ascii)
  : result fault (list ascii) :=
  if decide (i < length buf) then Ok (<[i := c]> buf)
  else Fault (Word_buffer_overrun i).

(** The string that starts at the beginning of an array of characters and
    ends before its first NUL. *)
Fixpoint c_string (buf : list ascii) : result fault (list ascii) :=
  match buf with
  | [] => Fault Unterminated_string
  | c :: rest =>
      if bool_decide (c = NUL) then Ok []
      else w <- c_string rest;; Ok (c :: w)
  end.

(** Lines 145-146 and 154-155: terminate the buffer and count the word. *)
Definition flush_word (st : reader) : result fault reader :=
  buf <- store_char (word_buffer st) (pos st) NUL;;
  w <- c_string buf;;
  table <- add_word (hash_table st) w;;
  Ok {| hash_table := table; word_buffer := buf; pos := pos st |}.

(** Lines 134-149, the body of the loop, for the character [c]. *)
Definition read_char (c : ascii) (st : reader) : result fault reader :=
  if isalpha c || (bool_decide (c = apostrophe) && (0 <? pos st)) then
    if pos st <? WORD_BUFFER_SIZE - 1 then
      buf <- store_char (word_buffer st) (pos st) (tolower c);;
      Ok {| hash_table := hash_table st; word_buffer := buf; pos := pos st + 1 |}
    else Ok st
  else
    if 0 <? pos st then
      st' <- flush_word st;;
      Ok {| hash_table := hash_table st'; word_buffer := word_buffer st'; pos := 0 |}
    else Ok st.

(** The loop runs until [fgetc] returns [EOF]; [s] is what it returned
    before. *)
Fixpoint read_chars (s : list ascii) (st : reader) : result fault reader :=
  match s with
  | [] => Ok st
  | c :: s' => st' <- read_char c st;; read_chars s' st'
  end.

(** Lines 152-156: at the end of the file the last word may still be in the
    buffer. *)
Definition at_EOF (st : reader) : result fault (list (list WordFreqNode)) :=
  if 0 <? pos st then st' <- flush_word st;; Ok (hash_table st')
  else Ok (hash_table st).

(** Lines 127-156.  [junk] is what [word_buffer] holds when the function is
    entered. *)
Definition read_file_from (junk : list ascii) (s : list ascii)
  : result fault (list (list WordFreqNode)) :=
  st <- read_chars s {| hash_table := replicate (Z.to_nat HASH_TABLE_SIZE) [];
                        word_buffer := junk;
                        pos := 0 |};;
  at_EOF st.

Definition read_file (s : list ascii) : result fault (list (list WordFreqNode)) :=
  read_file_from (replicate WORD_BUFFER_SIZE NUL) s.

(** *** From the table to the result (lines 162-207) *)

(** Lines 170-171: [word_linked_list[count] = node; count++].  The array has
    [HASH_TABLE_SIZE] cells; [wll] is the part written so far, [count] its
    length. *)
Definition push_node (node : WordFreqNode) (wll : list WordFreqNode)
  : result fault (list WordFreqNode) :=
  if decide (Z.of_nat (length wll) < HASH_TABLE_SIZE)%Z then Ok (wll ++ [node])
  else Fault (Word_list_overrun (length wll)).

(** Lines 168-173. *)
Fixpoint push_chain (chain : list WordFreqNode) (wll : list WordFreqNode)
  : result fault (list WordFreqNode) :=
  match chain with
  | [] => Ok wll
  | node :: next => wll' <- push_node node wll;; push_chain next wll'
  end.

(** Lines 162-174. *)
Definition collect (table : list (list WordFreqNode))
  : result fault (list WordFreqNode) :=
  for_loop (seq 0 (Z.to_nat HASH_TABLE_SIZE))
    (fun i wll =>
       match table !! i with
       | Some chain => push_chain chain wll
       | None => Fault (Hash_table_overrun i)
       end) [].

(** A cell of the array that [find_frequent_words] returns: a copy of a word,
    or whatever [malloc] left there. *)
Inductive slot : Type :=
| Str (w : list ascii)
| Indeterminate.

(** Lines 180-204: the array of [n] cells from [malloc], and the loop
    [if (i < count) result[i] = strdup(word_linked_list[i]->word)]. *)
Definition gather (word_linked_list : list WordFreqNode) (count : nat) (n : Z)
  : result fault (list slot) :=
  for_loop (seq 0 (Z.to_nat n))
    (fun i res =>
       if i <? count then
         match word_linked_list !! i with
         | Some node =>
             if decide (i < length res) then Ok (<[i := Str (word node)]> res)
             else Fault (Result_overrun i)
         | None => Fault (Word_list_overrun i)
         end
       else Ok res) (replicate (Z.to_nat n) Indeterminate).

(** How [main] ends: the lines it prints and [EXIT_SUCCESS], or one of its
    two failures.  [InvalidArgument] is the exit at lines 223-226 ("The value
    of n must be a positive integer."), [InputUnavailable] the exit at lines
    231-234 after [find_frequent_words] returned NULL ("Failed to open file",
    "Failed to retrieve the most frequent words."). *)
Inductive error : Type := InvalidArgument | InputUnavailable.

Inductive exit : Type :=
| EXIT_SUCCESS (printed : list (nat * list ascii))
| EXIT_FAILURE (e : error).

Section Environment.
(** [fopen path "r"] with the characters that [fgetc] then returns, or
    [None] when the file cannot be opened. *)
Variable fopen : string -> option (list ascii).
(** [qsort] of stdlib.h, applied to an array of nodes. *)
Variable qsort :
  (WordFreqNode -> WordFreqNode -> Z) -> list WordFreqNode -> list WordFreqNode.

(** Lines 117-208.  [None] is the NULL that the function returns when it
    cannot open the file.  Memory allocation is taken to succeed, and [n] to
    be positive, as it is when [main] makes the call: only then is the size
    of the request for the array that of [n] cells. *)
Definition find_frequent_words (path : string) (n : Z)
  : result fault (option (list slot)) :=
  match fopen path with
  | None => Ok None
  | Some file =>
      table <- read_file file;;
      word_linked_list <- collect table;;
      let count := length word_linked_list in
      (* line 177: the array is sorted in place *)
      let word_linked_list := qsort compare_by_frequency word_linked_list in
      res <- gather word_linked_list count n;;
      Ok (Some res)
  end.

(** Lines 238-243: the loop that prints the words. *)
Definition print_words (frequent_words : list slot) (n : Z)
  : result fault (list (nat * list ascii)) :=
  for_loop (seq 0 (Z.to_nat n))
    (fun i printed =>
       match frequent_words !! i with
       | Some (Str w) => Ok (printed ++ [(i + 1, w)])
       | Some Indeterminate => Fault (Indeterminate_read i)
       | None => Fault (Result_overrun i)
       end) [].

(** Lines 219-246, after the arguments are read: [filepath] and [n]. *)
Definition main (filepath : string) (n : Z) : result fault exit :=
  if (n <=? 0)%Z then Ok (EXIT_FAILURE InvalidArgument)
  else
    frequent_words <- find_frequent_words filepath n;;
    match frequent_words with
    | None => Ok (EXIT_FAILURE InputUnavailable)
    | Some frequent_words =>
        printed <- print_words frequent_words n;;
        Ok (EXIT_SUCCESS printed)
    end.
End Environment.

(** *** The contract of [qsort], and a sort that meets it

    [qsort] leaves the elements of the array in an order in which no element
    compares greater than its successor; which order among those is not
    specified. *)
Definition qsort_contract
  (qsort : (WordFreqNode -> WordFreqNode -> Z) -> list WordFreqNode -> list WordFreqNode)
  : Prop :=
  forall l, Permutation (qsort compare_by_frequency l) l /\
            Sorted (fun a b => (compare_by_frequency a b <= 0)%Z)
                   (qsort compare_by_frequency l).

Fixpoint insert_by {A} (cmp : A -> A -> Z) (x : A) (l : list A) : list A :=
  match l with
  | [] => [x]
  | y :: l' => if (cmp x y <=? 0)%Z then x :: l else y :: insert_by cmp x l'
  end.

Definition insertion_sort {A} (cmp : A -> A -> Z) (l : list A) : list A :=
  foldr (insert_by cmp) [] l.

(** *** The tokenization rule of the specification

    These definitions follow the words of the specification, not the code. *)

Definition lowercase_letters : list ascii :=
  list_ascii_of_string "abcdefghijklmnopqrstuvwxyz".
Definition uppercase_letters : list ascii :=
  list_ascii_of_string "ABCDEFGHIJKLMNOPQRSTUVWXYZ".

Definition is_letter (c : ascii) : bool :=
  bool_decide (c ∈ lowercase_letters ++ uppercase_letters).

(** The lowercase letter for an uppercase one; other characters as they are. *)
Definition fold_case (c : ascii) : ascii :=
  match list_find (eq c) uppercase_letters with
  | Some (i, _) => default c (lowercase_letters !! i)
  | None => c
  end.

(** A character contributes to the current word [cur] if it is a letter, or
    an apostrophe while the word is not empty. *)
Definition contributes (cur : list ascii) (c : ascii) : bool :=
  is_letter c || (bool_decide (c = apostrophe) && bool_decide (cur <> [])).

(** Terminating the current word emits it if it is not empty. *)
Definition emit (cur : list ascii) : list (list ascii) :=
  match cur with
  | [] => []
  | _ => [cur]
  end.

Fixpoint scan (cur : list ascii) (s : list ascii) : list (list ascii) :=
  match s with
  | [] => emit cur
  | c :: s' =>
      if contributes cur c then scan (cur ++ [fold_case c]) s'
      else emit cur ++ scan [] s'
  end.

Definition spec_tokens (s : list ascii) : list (list ascii) := scan [] s.

(** A run of word characters: a letter, then letters and apostrophes.  It is
    maximal in the text [before ++ run ++ after] when [before] does not end
    and [after] does not start with a letter or an apostrophe. *)
Definition word_char (c : ascii) : bool :=
  is_letter c || bool_decide (c = apostrophe).

Definition word_run (run : list ascii) : Prop :=
  match run with
  | [] => False
  | c :: run' => is_letter c = true /\ Forall (fun c => word_char c = true) run'
  end.

Definition ends_outside_word (before : list ascii) : Prop :=
  match last before with
  | Some c => word_char c = false
  | None => True
  end.

Definition starts_outside_word (after : list ascii) : Prop :=
  match after with
  | c :: _ => word_char c = false
  | [] => True
  end.

(** The number of occurrences of a word in a list of tokens. *)
Definition occurrences (w : list ascii) (tokens : list (list ascii)) : nat :=
  length (filter (eq w) tokens).

(** The table as the mapping it stands for: its nodes, and the count that it
    holds for a word (0 for a word without a node). *)
Definition entries (table : list (list WordFreqNode)) : list WordFreqNode :=
  concat table.

Definition count_of (table : list (list WordFreqNode)) (w : list ascii) : Z :=
  match list_find (fun node => word node = w) (entries table) with
  | Some (_, node) => count node
  | None => 0%Z
  end.

(** The table holds exactly one node for each distinct word of [tokens], with
    the number of occurrences of the word as its count. *)
Definition counts_exactly (table : list (list WordFreqNode))
  (tokens : list (list ascii)) : Prop :=
  NoDup (map word (entries table)) /\
  (forall node, node ∈ entries table ->
     word node ∈ tokens /\
     count node = Z.of_nat (occurrences (word node) tokens)) /\
  (forall w, w ∈ tokens -> exists node, node ∈ entries table /\ word node = w).

(** The words that the program counts: the tokens of the specification, each
    cut to the capacity of the word buffer. *)
Definition counted_words (s : list ascii) : list (list ascii) :=
  map (take (WORD_BUFFER_SIZE - 1)) (spec_tokens s).

(** Counting a list of words into a table. *)
Fixpoint add_words (ws : list (list ascii)) (table : list (list WordFreqNode))
  : result fault (list (list WordFreqNode)) :=
  match ws with
  | [] => Ok table
  | w :: ws' => table' <- add_word table w;; add_words ws' table'
  end.

(** *** Invariants *)

(** The reader [st] is in the middle of the word [cur] of the specification:
    the buffer holds the first 149 characters of [cur], and [pos] counts
    them. *)
Record holds (st : reader) (cur : list ascii) : Prop := {
  holds_length : length (word_buffer st) = WORD_BUFFER_SIZE;
  holds_pos : pos st = min (WORD_BUFFER_SIZE - 1) (length cur);
  holds_prefix : take (pos st) (word_buffer st) = take (WORD_BUFFER_SIZE - 1) cur;
  holds_no_NUL : NUL ∉ cur
}.

(** The invariant of the table while the words [toks] are counted into it:
    10000 chains; in chain [i], distinct words that hash to [i], each with
    its number of occurrences; and a node for every word counted. *)
Record table_inv (table : list (list WordFreqNode)) (toks : list (list ascii))
  : Prop := {
  inv_length : length table = Z.to_nat HASH_TABLE_SIZE;
  inv_NoDup : forall i chain, table !! i = Some chain -> NoDup (map word chain);
  inv_node : forall i chain node,
      table !! i = Some chain -> node ∈ chain ->
      Z.to_nat (djb2_hash (word node)) = i /\ word node ∈ toks /\
      count node = Z.of_nat (occurrences (word node) toks);
  inv_found : forall w, w ∈ toks ->
      exists chain node,
        table !! Z.to_nat (djb2_hash w) = Some chain /\ node ∈ chain /\ word node = w
}.

(** Descending order of the counts. *)
Definition descending (a b : WordFreqNode) : Prop := (count b <= count a)%Z.

(** *** Inputs used in examples *)

Definition text (s : string) : list ascii := list_ascii_of_string s.

(** A run of 150 letters. *)
Definition long_run : list ascii := replicate 150 "a"%char.

(** Two runs of more than 149 word characters that agree, up to case, on
    their first 149 characters, with a space between them. *)
Definition run_ax : list ascii := replicate 149 "a"%char ++ text "x".
Definition run_Ayz : list ascii := replicate 149 "A"%char ++ text "yz".
Definition after_run_ax : list ascii := " "%char :: run_Ayz.

(** A directory with two files. *)
Definition two_files (path : string) : option (list ascii) :=
  if String.eqb path "rain.txt" then Some (text "Rain, rain, go away! Don't come again.")
  else if String.eqb path "one.txt" then Some (text "a")
  else None.

End Words.

(** * rain_probability.c: the Monte Carlo check (lines 82-108) *)

Module Simulation.
Import Rain.

Section Code.
Context {F : Type} `{Arith F}.

(** The environment of the simulation.  [rand k] is what call number [k] of
    [rand()] returns, counting from 0; [uniform r] is the [float]
    [(float)r / RAND_MAX]; [leb] is [<=] on [float]s; [ratio a b] is the
    [float] [(float)a / b] of two [int]s. *)
Variable rand : nat -> Z.
Variable uniform : Z -> F.
Variable leb : F -> F -> bool.
Variable ratio : Z -> Z -> F.

(** Lines 87-89, the body of the loop over the days.  The state is
    [rainy_days] and the number of calls of [rand()] made so far. *)
Definition simulate_day (p : list F) (i : nat) (st : Z * nat)
  : result fault (Z * nat) :=
  pi <- load_p p i;;
  Ok (if leb (uniform (rand (snd st))) pi then (fst st + 1)%Z else fst st,
      S (snd st)).

(** Lines 82-93.  The loop runs [i] from 0 to [DAYSPERYEAR - 1]. *)
Definition simulate_year (p : list F) (calls : nat) : result fault (Z * nat) :=
  for_loop (seq 0 DAYSPERYEAR) (simulate_day p) (0%Z, calls).

(** Lines 99-104, the body of the loop over the simulated years.  The state
    is [num_years_rain_more_than_n] and the number of calls of [rand()]. *)
Definition simulate_and_count (p : list F) (n : Z) (st : Z * nat)
  : result fault (Z * nat) :=
  year <- simulate_year p (snd st);;
  Ok (if (fst year >? n)%Z then (fst st + 1)%Z else fst st, snd year).

(** Lines 95-108. *)
Definition monte_carlo_prob_rain_more_than_n (p : list F) (n : Z)
  (num_simulations : Z) (calls : nat) : result fault (F * nat) :=
  st <- for_loop (seq 0 (Z.to_nat num_simulations))
          (fun _ => simulate_and_count p n) (0%Z, calls);;
  Ok (ratio (fst st) num_simulations, snd st).

(** Line 120, the body of the loop that fills [p]:
    [p[i] = (float)rand() / RAND_MAX].  The state is the array and the
    number of calls of [rand()]. *)
Definition assign_day (i : nat) (st : list F * nat)
  : result fault (list F * nat) :=
  if decide (i < length (fst st))
  then Ok (<[i := uniform (rand (snd st))]> (fst st), S (snd st))
  else Fault (P_out_of_bounds i).

(** Lines 113-131.  [p] is the array of [DAYSPERYEAR] cells as it lies on
    the stack on entry, [n] is 188 and [num_simulations] is 5000; the result
    is the two numbers printed. *)
Definition main (p : list F) : result fault (F * F) :=
  st <- for_loop (seq 0 DAYSPERYEAR) assign_day (p, 0);;
  probability1 <- prob_rain_more_than_n (fst st) 188;;
  probability2 <-
    monte_carlo_prob_rain_more_than_n (fst st) 188 5000 (snd st);;
  Ok (probability1, fst probability2).
End Code.

(** The days of a year, as the simulation decides them from the draws that
    start at call number [calls]: day [i] is rainy when its draw is at most
    [p[i]]. *)
Definition rainy_day {F} `{Arith F} (rand : nat -> Z) (uniform : Z -> F)
  (leb : F -> F -> bool) (p : list F) (calls : nat) (i : nat) : bool :=
  leb (uniform (rand (calls + i))) (nth i p zero).

(** An environment for examples, in exact arithmetic: draws that go round
    0..10, with [RAND_MAX] taken to be 10. *)
Definition rand_mod_11 (k : nat) : Z := Z.of_nat (k mod 11).
Definition uniform_10 (r : Z) : Qc := Q2Qc (Qmake r 10).
Definition Qc_leb (x y : Qc) : bool := Qle_bool x y.
Definition Qc_ratio (a b : Z) : Qc := (Q2Qc (inject_Z a) / Q2Qc (inject_Z b))%Qc.

(** A year with 366 readable cells, all 1/2. *)
Definition half_366 : list Qc := replicate 366 (Q2Qc (1 # 2)).

(** The probability of a day that is certain ([true]) or impossible. *)
Definition certain {F} `{Arith F} (b : bool) : F := if b then one else zero.

End Simulation.

(** * most_freq_words.c: words, texts and the lines printed *)

Module WordsMore.
Import Words.


(** A word as the program stores it: not empty, a lowercase letter first,
    then lowercase letters and apostrophes, at most 149 characters. *)
Definition stored_word (w : list ascii) : Prop :=
  match w with
  | [] => False
  | c :: w' =>
      c ∈ lowercase_letters /\
      Forall (fun c => c ∈ lowercase_letters \/ c = apostrophe) w'
  end /\ length w <= WORD_BUFFER_SIZE - 1.

(** The text made of the words [ws], each followed by a space. *)
Definition spaced (ws : list (list ascii)) : list ascii :=
  concat (map (fun w => w ++ [" "%char]) ws).

(** The number of distinct words that the program counts in a text. *)
Definition distinct_words (s : list ascii) : nat :=
  length (remove_dups (counted_words s)).

(** The lines that [main] prints for the words [top]: numbered from 1. *)
Definition numbered (top : list (list ascii)) : list (nat * list ascii) :=
  imap (fun i w => (i + 1, w)) top.

(** A text with more than 10000 distinct words: all words of three letters
    from the first 22 letters of the alphabet, each followed by a space. *)
Definition letters_22 : list ascii := take 22 lowercase_letters.
Definition three_letter_words : list (list ascii) :=
  a ← letters_22; b ← letters_22; c ← letters_22; [[a; b; c]].
Definition big_text : list ascii := spaced three_letter_words.

(** A directory in which every path opens the same file. *)
Definition one_file (s : list ascii) (path : string) : option (list ascii) :=
  Some s.

(** The table that reading [s] leaves, for the examples (the table without a
    node if reading stops). *)
Definition table_of (s : list ascii) : list (list WordFreqNode) :=
  match read_file s with
  | Ok table => table
  | Fault _ => replicate (Z.to_nat HASH_TABLE_SIZE) []
  end.

End WordsMore.

(** * Loops *)

Lemma for_loop_app {E S} (l1 l2 : list nat) (body : nat -> S -> result E S) (s : S) :
  for_loop (l1 ++ l2) body s = bind (for_loop l1 body s) (for_loop l2 body).
Proof.
  revert s; induction l1 as [|i l1 IH]; intros s; simpl; [reflexivity|].
  destruct (body i s) as [s'|f]; simpl; [apply IH | reflexivity].
Qed.

Lemma for_loop_ext {E S} (l : list nat) (f g : nat -> S -> result E S) (s : S) :
  (forall i s', i ∈ l -> f i s' = g i s') ->
  for_loop l f s = for_loop l g s.
Proof.
  revert s; induction l as [|i l IH]; intros s Hfg; simpl; [reflexivity|].
  rewrite (Hfg i s) by left.
  destruct (g i s) as [s'|e]; simpl; [|reflexivity].
  apply IH. intros j s'' Hj. apply Hfg. by right.
Qed.

(** * Properties of rain_probability.c *)

Module RainFacts.
Import Rain.

Section AnyArithmetic.
Context {F : Type} `{Arith F}.

Lemma load_p_Some (p : list F) i q : p !! i = Some q -> load_p p i = Ok q.
Proof. unfold load_p. by intros ->. Qed.

Lemma load_p_None (p : list F) i :
  length p <= i -> load_p p i = Fault (P_out_of_bounds i).
Proof. intros Hi. unfold load_p. by rewrite lookup_ge_None_2. Qed.

Lemma load_Some (pmf : list F) i x : pmf !! i = Some x -> load pmf i = Ok x.
Proof. unfold load. by intros ->. Qed.

Lemma load_nth (pmf : list F) i : i < length pmf -> load pmf i = Ok (nth i pmf zero).
Proof.
  intros Hi. destruct (lookup_lt_is_Some_2 pmf i Hi) as [x Hx].
  by rewrite (nth_lookup_Some _ _ zero _ Hx), (load_Some _ _ _ Hx).
Qed.

Lemma store_lt (pmf : list F) i x :
  i < length pmf -> store pmf i x = Ok (<[i := x]> pmf).
Proof. intros Hi. unfold store. by rewrite decide_True. Qed.

Lemma nth_insert_ne (l : list F) i j x :
  i <> j -> nth j (<[i := x]> l) zero = nth j l zero.
Proof. intros Hij. by rewrite !nth_lookup, list_lookup_insert_ne. Qed.

Lemma nth_insert_eq (l : list F) i x :
  i < length l -> nth i (<[i := x]> l) zero = x.
Proof. intros Hi. by rewrite nth_lookup, list_lookup_insert_eq. Qed.

(** The loop over [j] runs downwards, so each cell it writes is computed
    from two cells that still hold their values from before the loop. *)
Lemma convolve_loop (p : list F) i q m (pmf : list F) :
  p !! i = Some q -> m < length pmf ->
  for_loop (rev (seq 1 m)) (convolve_at p i) pmf =
  Ok (imap (fun j x =>
              if (1 <=? j) && (j <=? m)
              then add (mul q (nth (j - 1) pmf zero)) (mul (sub one q) x)
              else x) pmf).
Proof.
  intros Hq. revert pmf. induction m as [|m IH]; intros pmf Hm.
  - cbn [seq rev for_loop]. f_equal. apply list_eq. intros j.
    rewrite list_lookup_imap.
    destruct (pmf !! j) as [x|]; [|done].
    destruct (Nat.leb_spec 1 j), (Nat.leb_spec j 0); try done. lia.
  - rewrite seq_S, rev_app_distr. cbn [rev app for_loop].
    unfold convolve_at at 1.
    rewrite (load_p_Some _ _ _ Hq). cbn [bind].
    replace (1 + m - 1) with m by lia.
    rewrite (load_nth pmf m) by lia. cbn [bind].
    rewrite (load_nth pmf (1 + m)) by lia. cbn [bind].
    rewrite store_lt by lia. cbn [bind].
    rewrite IH by (rewrite length_insert; lia).
    f_equal. apply list_eq. intros j.
    rewrite !list_lookup_imap.
    destruct (decide (j = 1 + m)) as [->|Hj].
    + rewrite list_lookup_insert_eq by lia.
      destruct (lookup_lt_is_Some_2 pmf (1 + m)) as [x Hx]; [lia|]. rewrite Hx.
      rewrite (nth_lookup_Some _ _ zero _ Hx).
      replace (1 + m - 1) with m by lia.
      destruct (Nat.leb_spec 1 (1 + m)); [|lia].
      destruct (Nat.leb_spec (1 + m) m); [lia|].
      destruct (Nat.leb_spec (1 + m) (S m)); [|lia].
      done.
    + rewrite list_lookup_insert_ne by done.
      destruct (pmf !! j) as [x|]; [|done].
      destruct (Nat.leb_spec 1 j) as [H1|H1]; [|done].
      destruct (Nat.leb_spec j m) as [H2|H2];
        destruct (Nat.leb_spec j (S m)) as [H3|H3]; try lia; try done.
      cbn [andb fmap option_fmap option_map].
      by rewrite nth_insert_ne by lia.
Qed.

Lemma length_day_update (q : F) i (old : list F) :
  length (day_update q i old) = length old.
Proof. apply length_imap. Qed.

Lemma length_fold_days (qs : list F) i (pmf : list F) :
  length (fold_days i qs pmf) = length pmf.
Proof.
  revert i pmf; induction qs as [|q qs IH]; intros i pmf; simpl; [done|].
  by rewrite IH, length_day_update.
Qed.

Lemma fold_day_closed (p : list F) i q (pmf : list F) :
  p !! i = Some q -> 1 <= i < length pmf ->
  fold_day p i pmf = Ok (day_update q i pmf).
Proof.
  intros Hq [Hi1 Hi2]. unfold fold_day.
  rewrite (load_p_Some _ _ _ Hq). cbn [bind].
  rewrite load_nth by lia. cbn [bind].
  rewrite store_lt by lia. cbn [bind].
  rewrite (convolve_loop p i q) by (rewrite ?length_insert; lia || done).
  cbn [bind].
  rewrite load_nth by (rewrite length_imap, length_insert; lia). cbn [bind].
  rewrite store_lt by (rewrite length_imap, length_insert; lia).
  f_equal. apply list_eq. intros j. unfold day_update.
  destruct (decide (j = 0)) as [->|Hj0].
  - rewrite list_lookup_insert_eq by (rewrite length_imap, length_insert; lia).
    rewrite list_lookup_imap, nth_lookup, list_lookup_imap.
    rewrite list_lookup_insert_ne by lia.
    destruct (lookup_lt_is_Some_2 pmf 0) as [x Hx]; [lia|]. by rewrite Hx.
  - rewrite list_lookup_insert_ne by done.
    rewrite !list_lookup_imap.
    destruct (Nat.eqb_spec j 0) as [|_]; [done|].
    destruct (decide (j = i)) as [->|Hji].
    + rewrite list_lookup_insert_eq by lia.
      destruct (lookup_lt_is_Some_2 pmf i) as [x Hx]; [lia|]. rewrite Hx.
      destruct (Nat.leb_spec 1 i); [|lia].
      destruct (Nat.leb_spec i (i - 1)); [lia|].
      destruct (Nat.ltb_spec i i); [lia|].
      destruct (Nat.eqb_spec i i); done.
    + rewrite list_lookup_insert_ne by done.
      destruct (pmf !! j) as [x|]; [|done].
      cbn [fmap option_fmap option_map]. f_equal.
      destruct (Nat.leb_spec 1 j); [|lia].
      destruct (Nat.leb_spec j (i - 1)), (Nat.ltb_spec j i); try lia.
      * cbn [andb]. by rewrite nth_insert_ne by lia.
      * destruct (Nat.eqb_spec j i); done.
Qed.

Lemma fold_day_fault (p : list F) i (pmf : list F) :
  length p <= i -> fold_day p i pmf = Fault (P_out_of_bounds i).
Proof. intros Hi. unfold fold_day. by rewrite load_p_None. Qed.

(** The passes [i .. i + length qs - 1] of the loop over the days, when the
    cells [p[i] ..] they read hold [qs]. *)
Lemma days_loop (p : list F) (qs : list F) i (pmf : list F) :
  1 <= i -> i + length qs <= length pmf ->
  (forall k q, qs !! k = Some q -> p !! (i + k) = Some q) ->
  for_loop (seq i (length qs)) (fold_day p) pmf = Ok (fold_days i qs pmf).
Proof.
  revert i pmf. induction qs as [|q qs IH]; intros i pmf Hi Hlen Hp.
  - done.
  - cbn [length seq for_loop fold_days]. cbn [length] in Hlen.
    rewrite (fold_day_closed p i q).
    + cbn [bind]. apply IH.
      * lia.
      * rewrite length_day_update. lia.
      * intros k q' Hk. replace (S i + k) with (i + S k) by lia.
        by apply Hp.
    + replace i with (i + 0) by lia. by apply Hp.
    + lia.
Qed.

(** The zeroing loop overwrites whatever the array held. *)
Lemma zeroing_loop (l : list F) k m :
  k + m = length l ->
  for_loop (seq k m) (fun i pmf => store pmf i zero) l =
  Ok (take k l ++ replicate m zero).
Proof.
  revert k l. induction m as [|m IH]; intros k l Hl.
  - cbn [seq for_loop replicate]. f_equal.
    rewrite app_nil_r, take_ge; [done | lia].
  - cbn [seq for_loop]. rewrite store_lt by lia. cbn [bind].
    rewrite IH by (rewrite length_insert; lia). f_equal.
    rewrite (take_S_r _ k zero), <- app_assoc.
    + f_equal. rewrite take_insert_ge by lia. done.
    + apply list_lookup_insert_eq. lia.
Qed.

Lemma zero_pmf_any (junk : list F) :
  length junk = DAYSPERYEAR + 1 ->
  zero_pmf junk = Ok (replicate (DAYSPERYEAR + 1) zero).
Proof.
  intros Hl. unfold zero_pmf. rewrite zeroing_loop by (rewrite Hl; lia).
  by rewrite take_0.
Qed.

Lemma length_pmf_start : length pmf_start = DAYSPERYEAR + 1.
Proof. unfold pmf_start. by rewrite length_insert, length_replicate. Qed.

Lemma prob_mass_func_start (p : list F) :
  prob_mass_func p (replicate (DAYSPERYEAR + 1) zero) =
  for_loop (seq 1 DAYSPERYEAR) (fold_day p) pmf_start.
Proof.
  unfold prob_mass_func. rewrite store_lt; [done|].
  rewrite length_replicate. unfold DAYSPERYEAR. lia.
Qed.

(** With 365 probabilities, the first 364 passes run and the last one reads
    [p[365]]. *)
Lemma days_loop_365 (p : list F) :
  length p = DAYSPERYEAR ->
  for_loop (seq 1 DAYSPERYEAR) (fold_day p) pmf_start =
  Fault (P_out_of_bounds DAYSPERYEAR).
Proof.
  intros Hp. change DAYSPERYEAR with (S 364) at 1.
  rewrite seq_S, for_loop_app.
  pose (qs := drop 1 p).
  assert (Hqs : length qs = 364).
  { unfold qs. rewrite length_drop, Hp. reflexivity. }
  rewrite <- Hqs at 1.
  rewrite (days_loop p qs).
  - cbn [bind for_loop]. rewrite fold_day_fault; [done|].
    rewrite Hp. unfold DAYSPERYEAR. lia.
  - lia.
  - rewrite Hqs, length_pmf_start. unfold DAYSPERYEAR. lia.
  - intros k q Hk. unfold qs in Hk. by rewrite lookup_drop in Hk.
Qed.

(** With at least 366 readable cells, all 365 passes run; they read
    [p[1] .. p[365]]. *)
Lemma days_loop_366 (p : list F) :
  DAYSPERYEAR < length p ->
  for_loop (seq 1 DAYSPERYEAR) (fold_day p) pmf_start =
  Ok (fold_days 1 (take DAYSPERYEAR (drop 1 p)) pmf_start).
Proof.
  intros Hp.
  remember (take DAYSPERYEAR (drop 1 p)) as qs eqn:Eqs.
  assert (Hqs : length qs = DAYSPERYEAR).
  { subst qs. rewrite length_take, length_drop. lia. }
  rewrite <- Hqs at 1. apply days_loop.
  - lia.
  - rewrite Hqs, length_pmf_start. lia.
  - intros k q Hk. subst qs.
    apply lookup_take_Some in Hk as [Hk _]. by rewrite lookup_drop in Hk.
Qed.

Lemma prob_rain_in_range (p : list F) (n : Z) :
  (0 <= n < Z.of_nat DAYSPERYEAR)%Z ->
  prob_rain_more_than_n p n =
  bind (for_loop (seq 1 DAYSPERYEAR) (fold_day p) pmf_start)
       (fun pmf => tail_sum pmf (Z.to_nat n)).
Proof.
  intros Hn. unfold prob_rain_more_than_n.
  destruct (Z.ltb_spec n 0); [lia|].
  destruct (Z.geb_spec n (Z.of_nat DAYSPERYEAR)); [lia|]. cbn [orb].
  rewrite zero_pmf_any by apply length_replicate. cbn [bind].
  by rewrite prob_mass_func_start.
Qed.

Lemma prob_rain_tail_eq (p q : list F) (n : Z) :
  (forall i, 1 <= i -> p !! i = q !! i) ->
  prob_rain_more_than_n p n = prob_rain_more_than_n q n.
Proof.
  intros Hpq. unfold prob_rain_more_than_n.
  destruct (_ || _)%bool; [done|].
  destruct (zero_pmf _) as [pmf|]; [|done]. cbn [bind].
  unfold prob_mass_func. destruct (store pmf 0 one) as [pmf'|]; [|done].
  cbn [bind]. rewrite (for_loop_ext _ (fold_day p) (fold_day q)); [done|].
  intros i s Hi. apply elem_of_seq in Hi.
  unfold fold_day, load_p. rewrite Hpq by lia.
  destruct (q !! i); [|done]. cbn [bind].
  destruct (load s (i - 1)); [|done]. cbn [bind].
  destruct (store s i _); [|done]. cbn [bind].
  rewrite (for_loop_ext _ (convolve_at p i) (convolve_at q i)); [done|].
  intros j s' _. unfold convolve_at, load_p. by rewrite Hpq by lia.
Qed.

(** C2 (the code departs from the claim).  With an array of 365
    probabilities and a threshold in range, the evaluation does not stay
    inside [p]: the pass for [i = 365] reads [p[365]], one cell past the end
    of the array, and that is where the bounds-checked evaluation stops. *)
Theorem prob_rain_reads_past_p (p : list F) (n : Z) :
  length p = DAYSPERYEAR -> (0 <= n < Z.of_nat DAYSPERYEAR)%Z ->
  prob_rain_more_than_n p n = Fault (P_out_of_bounds DAYSPERYEAR).
Proof.
  intros Hp Hn. rewrite prob_rain_in_range by done.
  by rewrite days_loop_365.
Qed.

(** C3.  For a threshold below 0 or at least 365 the function returns 0.0
    without touching the arrays. *)
Theorem prob_rain_out_of_range (p : list F) (n : Z) :
  (n < 0 \/ n >= Z.of_nat DAYSPERYEAR)%Z ->
  prob_rain_more_than_n p n = Ok zero.
Proof.
  intros Hn. unfold prob_rain_more_than_n.
  destruct (Z.ltb_spec n 0); [done|].
  destruct (Z.geb_spec n (Z.of_nat DAYSPERYEAR)); [done|]. lia.
Qed.

(** C4, as amended.  At both ends of the range the function returns 0.0:
    for the threshold -1 as well as for the threshold 365. *)
Theorem prob_rain_boundaries (p : list F) :
  prob_rain_more_than_n p (-1) = Ok zero /\
  prob_rain_more_than_n p 365 = Ok zero.
Proof. split; reflexivity. Qed.

(** C9.  Two arrays of 365 probabilities that agree on the indices 1..364
    give the same result for every threshold, whatever they hold at index 0;
    and so they do when the cell past their end is readable and holds some
    [x], in which case a probability is computed. *)
Theorem prob_rain_ignores_first_day (p q : list F) (n : Z) :
  length p = DAYSPERYEAR -> length q = DAYSPERYEAR ->
  (forall i, 1 <= i < DAYSPERYEAR -> p !! i = q !! i) ->
  prob_rain_more_than_n p n = prob_rain_more_than_n q n /\
  forall x, prob_rain_more_than_n (p ++ [x]) n = prob_rain_more_than_n (q ++ [x]) n.
Proof.
  intros Hp Hq Hpq. split.
  - apply prob_rain_tail_eq. intros i Hi.
    destruct (decide (i < DAYSPERYEAR)) as [Hlt|Hge]; [apply Hpq; lia|].
    rewrite !lookup_ge_None_2; [done | lia | lia].
  - intros x. apply prob_rain_tail_eq. intros i Hi.
    destruct (decide (i < DAYSPERYEAR)) as [Hlt|Hge].
    + rewrite !lookup_app_l by lia. apply Hpq. lia.
    + rewrite !lookup_app_r by lia. by rewrite Hp, Hq.
Qed.

End AnyArithmetic.

Lemma prob_rain_reads_past_p_witness :
  length every_day_half = DAYSPERYEAR /\
  (0 <= 188 < Z.of_nat DAYSPERYEAR)%Z /\
  prob_rain_more_than_n every_day_half 188 = Fault (P_out_of_bounds DAYSPERYEAR).
Proof.
  assert (H1 : length every_day_half = DAYSPERYEAR) by reflexivity.
  assert (H2 : (0 <= 188 < Z.of_nat DAYSPERYEAR)%Z) by (unfold DAYSPERYEAR; lia).
  exact (conj H1 (conj H2 (prob_rain_reads_past_p every_day_half 188 H1 H2))).
Defined.

Lemma prob_rain_out_of_range_witness :
  (400 < 0 \/ 400 >= Z.of_nat DAYSPERYEAR)%Z /\
  prob_rain_more_than_n every_day_half 400 = Ok zero.
Proof.
  assert (H1 : (400 < 0 \/ 400 >= Z.of_nat DAYSPERYEAR)%Z)
    by (unfold DAYSPERYEAR; lia).
  exact (conj H1 (prob_rain_out_of_range every_day_half 400 H1)).
Defined.

(** C4 (counterexample).  For the threshold -1 the result is 0.0, not 1.0:
    in exact arithmetic, for the year with probability 1/2 on each of its 365
    days, and in binary32, for the year with probability 1.0 on each. *)
Lemma prob_rain_minus_one_is_not_one :
  length every_day_half = DAYSPERYEAR /\
  prob_rain_more_than_n every_day_half (-1) = Ok zero /\
  prob_rain_more_than_n every_day_half (-1) <> Ok one /\
  prob_rain_more_than_n (replicate DAYSPERYEAR (one : binary32)) (-1) <> Ok one.
Proof. split; [reflexivity|]. split; [reflexivity|]. split; discriminate. Qed.

Lemma prob_rain_ignores_first_day_witness :
  length rain_on_jan_1_only = DAYSPERYEAR /\
  length never_rain = DAYSPERYEAR /\
  rain_on_jan_1_only !! 0 <> never_rain !! 0 /\
  prob_rain_more_than_n rain_on_jan_1_only 0 = prob_rain_more_than_n never_rain 0 /\
  forall x, prob_rain_more_than_n (rain_on_jan_1_only ++ [x]) 0 =
            prob_rain_more_than_n (never_rain ++ [x]) 0.
Proof.
  assert (H1 : length rain_on_jan_1_only = DAYSPERYEAR) by reflexivity.
  assert (H2 : length never_rain = DAYSPERYEAR) by reflexivity.
  assert (H3 : forall i, 1 <= i < DAYSPERYEAR ->
                         rain_on_jan_1_only !! i = never_rain !! i).
  { intros [|i] Hi; [lia|]. unfold rain_on_jan_1_only, never_rain.
    change DAYSPERYEAR with (S 364). reflexivity. }
  refine (conj H1 (conj H2 (conj _
            (prob_rain_ignores_first_day rain_on_jan_1_only never_rain 0 H1 H2 H3)))).
  discriminate.
Defined.

(** ** Exact arithmetic

    From here on the arithmetic obeys the ring laws. *)
Section ExactArithmetic.
Context {F : Type} `{Arith F} (opp : F -> F).
Context (Rth : ring_theory zero one add mul sub opp eq).
Add Ring Fring : Rth.

Declare Scope arith_scope.
Delimit Scope arith_scope with A.
#[local] Infix "+" := add : arith_scope.
#[local] Infix "*" := mul : arith_scope.
#[local] Infix "-" := sub : arith_scope.

Lemma sum_list_app (l1 l2 : list F) :
  sum_list (l1 ++ l2) = (sum_list l1 + sum_list l2)%A.
Proof.
  induction l1 as [|x l1 IH]; cbn [app sum_list foldr].
  - fold (sum_list l2). ring.
  - fold (sum_list (l1 ++ l2)) (sum_list l1). rewrite IH. ring.
Qed.

Lemma sum_list_scaled {A} (c : F) (f : A -> F) (l : list A) :
  sum_list (map (fun a => c * f a)%A l) = (c * sum_list (map f l))%A.
Proof.
  induction l as [|a l IH]; cbn [map sum_list foldr].
  - ring.
  - fold (sum_list (map (fun a => c * f a)%A l)) (sum_list (map f l)).
    rewrite IH. ring.
Qed.

Lemma filter_map_cons (P : list bool -> bool) b (l : list (list bool)) :
  List.filter P (map (cons b) l) = map (cons b) (List.filter (fun w => P (b :: w)) l).
Proof.
  induction l as [|w l IH]; cbn [map List.filter]; [done|].
  destruct (P (b :: w)); cbn [map]; by rewrite IH.
Qed.

(** Conditioning on the first trial. *)
Lemma prob_event_cons (q : F) (ps : list F) (E : nat -> bool) :
  prob_event (q :: ps) E =
  (q * prob_event ps (fun s => E (S s)) + (one - q) * prob_event ps E)%A.
Proof.
  unfold prob_event. cbn [length outcomes].
  rewrite List.filter_app, map_app, sum_list_app, !filter_map_cons, !map_map.
  cbn [outcome_prob successes].
  rewrite !sum_list_scaled. reflexivity.
Qed.

Lemma prob_event_ext (ps : list F) (E E' : nat -> bool) :
  (forall s, E s = E' s) -> prob_event ps E = prob_event ps E'.
Proof.
  intros HE. unfold prob_event. f_equal. f_equal.
  apply List.filter_ext. intros w. apply HE.
Qed.

Lemma prob_event_never (ps : list F) : prob_event ps (fun _ => false) = zero.
Proof.
  induction ps as [|q ps IH].
  - reflexivity.
  - rewrite prob_event_cons, IH. ring.
Qed.

Lemma pmf_exact_nil (k : nat) :
  pmf_exact [] k = if k =? 0 then one else zero.
Proof.
  unfold pmf_exact, prob_event. cbn [length outcomes List.filter successes].
  destruct k; cbn [Nat.eqb map sum_list foldr outcome_prob]; [ring | done].
Qed.

Lemma pmf_exact_cons_0 (q : F) (ps : list F) :
  pmf_exact (q :: ps) 0 = ((one - q) * pmf_exact ps 0)%A.
Proof.
  unfold pmf_exact. rewrite prob_event_cons.
  rewrite (prob_event_ext ps (fun s => S s =? 0) (fun _ => false)) by done.
  rewrite prob_event_never. ring.
Qed.

Lemma pmf_exact_cons_S (q : F) (ps : list F) (k : nat) :
  pmf_exact (q :: ps) (S k) =
  (q * pmf_exact ps k + (one - q) * pmf_exact ps (S k))%A.
Proof. unfold pmf_exact. by rewrite prob_event_cons. Qed.

(** More successes than trials has probability 0. *)
Lemma pmf_exact_beyond (ps : list F) (k : nat) :
  length ps < k -> pmf_exact ps k = zero.
Proof.
  revert k. induction ps as [|q ps IH]; intros k Hk.
  - rewrite pmf_exact_nil. destruct k; [cbn [length] in Hk; lia | done].
  - destruct k as [|k]; [lia|]. cbn [length] in Hk.
    rewrite pmf_exact_cons_S, !IH by lia. ring.
Qed.

(** The probability of [k] successes does not depend on the order of the
    trials. *)
Lemma pmf_exact_perm (l l' : list F) :
  Permutation l l' -> forall k, pmf_exact l k = pmf_exact l' k.
Proof.
  induction 1 as [|q l l' _ IH|q r l|l l' l'' _ IH1 _ IH2]; intros k.
  - done.
  - destruct k as [|k].
    + by rewrite !pmf_exact_cons_0, IH.
    + by rewrite !pmf_exact_cons_S, !IH.
  - destruct k as [|[|k]];
      rewrite ?pmf_exact_cons_S, ?pmf_exact_cons_0; ring.
  - by rewrite IH1, IH2.
Qed.

(** One pass of the loop over the days turns the distribution of the trials
    folded in so far into the distribution with one more trial. *)
Lemma day_update_exact (q : F) (seen : list F) (pmf : list F) (j : nat) :
  S (length seen) < length pmf ->
  (forall k, k < length pmf -> pmf !! k = Some (pmf_exact seen k)) ->
  j < length pmf ->
  day_update q (S (length seen)) pmf !! j = Some (pmf_exact (q :: seen) j).
Proof.
  intros Hlen Hpmf Hj. unfold day_update. rewrite list_lookup_imap.
  rewrite (Hpmf j Hj). cbn [fmap option_fmap option_map]. f_equal.
  destruct (Nat.eqb_spec j 0) as [->|Hj0].
  - by rewrite pmf_exact_cons_0.
  - destruct j as [|j]; [done|]. replace (S j - 1) with j by lia.
    rewrite (nth_lookup_Some _ _ zero _ (Hpmf j ltac:(lia))).
    rewrite pmf_exact_cons_S.
    destruct (Nat.ltb_spec (S j) (S (length seen))) as [H1|H1]; [done|].
    rewrite (pmf_exact_beyond seen (S j)) by lia.
    destruct (Nat.eqb_spec (S j) (S (length seen))) as [H2|H2]; [ring|].
    rewrite (pmf_exact_beyond seen j) by lia. ring.
Qed.

Lemma fold_days_exact (qs seen : list F) (pmf : list F) (j : nat) :
  length seen + length qs < length pmf ->
  (forall k, k < length pmf -> pmf !! k = Some (pmf_exact seen k)) ->
  j < length pmf ->
  fold_days (S (length seen)) qs pmf !! j = Some (pmf_exact (rev qs ++ seen) j).
Proof.
  revert seen pmf j. induction qs as [|q qs IH]; intros seen pmf j Hlen Hpmf Hj.
  - by apply Hpmf.
  - cbn [fold_days rev]. cbn [length] in Hlen. rewrite <- app_assoc. cbn [app].
    apply (IH (q :: seen)).
    + rewrite length_day_update. cbn [length]. lia.
    + intros k Hk. rewrite length_day_update in Hk.
      apply day_update_exact; [lia | done | done].
    + by rewrite length_day_update.
Qed.

Lemma pmf_start_exact (k : nat) :
  k < length (pmf_start (F:=F)) -> pmf_start !! k = Some (pmf_exact [] k).
Proof.
  intros Hk. rewrite pmf_exact_nil. unfold pmf_start in *.
  rewrite length_insert, length_replicate in Hk.
  destruct k as [|k].
  - apply list_lookup_insert_eq. rewrite length_replicate. lia.
  - rewrite list_lookup_insert_ne by done. cbn [Nat.eqb].
    by apply lookup_replicate_2.
Qed.

Lemma successes_le (d : nat) (w : list bool) :
  In w (outcomes d) -> successes w <= d.
Proof.
  revert w. induction d as [|d IH]; intros w Hw; cbn [outcomes] in Hw.
  - destruct Hw as [<-|[]]. done.
  - apply in_app_or in Hw as [Hw|Hw]; apply in_map_iff in Hw as (w' & <- & Hw');
      specialize (IH w' Hw'); cbn [successes]; lia.
Qed.

Lemma sum_list_zeros {A} (l : list A) :
  sum_list (map (fun _ => zero (F:=F)) l) = zero.
Proof.
  induction l as [|a l IH]; cbn [map sum_list foldr]; [done|].
  fold (sum_list (map (fun _ => zero (F:=F)) l)). rewrite IH. ring.
Qed.

Lemma sum_list_add_one (s : nat) (c : F) (a : nat -> F) (lo m : nat) :
  sum_list (map (fun k => (if s =? k then c else zero) + a k)%A (seq lo m)) =
  ((if (lo <=? s) && (s <? lo + m) then c else zero)
   + sum_list (map a (seq lo m)))%A.
Proof.
  revert lo. induction m as [|m IH]; intros lo.
  - cbn [seq map sum_list foldr].
    destruct (Nat.leb_spec lo s), (Nat.ltb_spec s (lo + 0)); cbn [andb];
      try ring; lia.
  - cbn [seq map sum_list foldr].
    fold (sum_list (map (fun k => (if s =? k then c else zero) + a k)%A (seq (S lo) m))).
    fold (sum_list (map a (seq (S lo) m))).
    rewrite IH.
    destruct (Nat.eqb_spec s lo), (Nat.leb_spec (S lo) s), (Nat.ltb_spec s (S lo + m)),
      (Nat.leb_spec lo s), (Nat.ltb_spec s (lo + S m)); cbn [andb]; try lia; ring.
Qed.

(** Summing over the outcomes with at least [lo] successes is summing, for
    each count from [lo] on, over the outcomes with that count. *)
Lemma sum_by_count (f : list bool -> F) (ws : list (list bool)) (lo d : nat) :
  (forall w, In w ws -> successes w <= d) ->
  sum_list (map f (List.filter (fun w => lo <=? successes w) ws)) =
  sum_list (map (fun k => sum_list (map f (List.filter (fun w => successes w =? k) ws)))
                (seq lo (S d - lo))).
Proof.
  induction ws as [|w ws IH]; intros Hd.
  - cbn [List.filter map sum_list foldr]. by rewrite sum_list_zeros.
  - cbn [List.filter].
    rewrite (map_ext
      (fun k => sum_list (map f (if successes w =? k
                                 then w :: List.filter (fun w => successes w =? k) ws
                                 else List.filter (fun w => successes w =? k) ws)))
      (fun k => (if successes w =? k then f w else zero)
                + sum_list (map f (List.filter (fun w => successes w =? k) ws)))%A).
    2:{ intros k. destruct (successes w =? k); cbn [map sum_list foldr]; [done|].
        ring. }
    rewrite sum_list_add_one, <- IH by (intros w' Hw'; apply Hd; by right).
    pose proof (Hd w (or_introl eq_refl)) as Hw.
    destruct (Nat.leb_spec lo (successes w)), (Nat.ltb_spec (successes w) (lo + (S d - lo)));
      cbn [andb map sum_list foldr]; try lia; try done. ring.
Qed.

Lemma prob_event_from (ps : list F) (lo d : nat) :
  length ps <= d ->
  prob_event ps (fun s => lo <=? s) =
  sum_list (map (pmf_exact ps) (seq lo (S d - lo))).
Proof.
  intros Hd. unfold pmf_exact, prob_event.
  rewrite (sum_by_count _ _ lo d).
  - done.
  - intros w Hw. apply successes_le in Hw. lia.
Qed.

Lemma tail_exact_sum (ps : list F) (n d : nat) :
  length ps <= d ->
  tail_exact ps n = sum_list (map (pmf_exact ps) (seq (n + 1) (d - n))).
Proof.
  intros Hd. unfold tail_exact.
  rewrite (prob_event_ext ps _ (fun s => n + 1 <=? s)).
  - rewrite (prob_event_from ps (n + 1) d Hd). do 3 f_equal. lia.
  - intros s. destruct (Nat.ltb_spec n s), (Nat.leb_spec (n + 1) s); done || lia.
Qed.

Lemma tail_exact_perm (l l' : list F) (n : nat) :
  Permutation l l' -> tail_exact l n = tail_exact l' n.
Proof.
  intros Hp.
  rewrite (tail_exact_sum l n (length l)), (tail_exact_sum l' n (length l)).
  - f_equal. apply map_ext. intros k. by apply pmf_exact_perm.
  - by rewrite (Permutation_length Hp).
  - done.
Qed.

(** The probabilities of all outcomes add up to 1. *)
Lemma prob_event_always (ps : list F) : prob_event ps (fun _ => true) = one.
Proof.
  induction ps as [|q ps IH].
  - unfold prob_event. cbn. ring.
  - rewrite prob_event_cons, IH. ring.
Qed.

Lemma pmf_exact_total (ps : list F) (d : nat) :
  length ps <= d -> sum_list (map (pmf_exact ps) (seq 0 (S d))) = one.
Proof.
  intros Hd. rewrite <- (prob_event_always ps).
  rewrite (prob_event_ext ps (fun _ => true) (fun s => 0 <=? s)) by done.
  by rewrite (prob_event_from ps 0 d Hd), Nat.sub_0_r.
Qed.

#[local] Opaque prob_event.

(** The loop that adds up the tail. *)
Lemma tail_loop (pmf : list F) (a m : nat) (acc : F) :
  a + m <= length pmf ->
  for_loop (seq a m)
    (fun k probability => x <- load pmf k;; Ok (add probability x)) acc =
  Ok (acc + sum_list (map (fun k => nth k pmf zero) (seq a m)))%A.
Proof.
  revert a acc. induction m as [|m IH]; intros a acc Ha.
  - cbn [seq for_loop map sum_list foldr]. f_equal. ring.
  - cbn [seq for_loop map sum_list foldr].
    rewrite load_nth by lia. cbn [bind].
    rewrite IH by lia. f_equal.
    fold (sum_list (map (fun k => nth k pmf zero) (seq (S a) m))). ring.
Qed.

(** After the passes for the trials [qs], cell [k] of the array holds the
    probability of exactly [k] successes among [qs]. *)
Lemma fold_days_pmf_exact (qs : list F) :
  length qs <= DAYSPERYEAR ->
  fold_days 1 qs pmf_start = map (pmf_exact qs) (seq 0 (DAYSPERYEAR + 1)).
Proof.
  intros Hqs. apply list_eq. intros k.
  destruct (decide (k < DAYSPERYEAR + 1)) as [Hk|Hk].
  - rewrite (fold_days_exact qs [] pmf_start k);
      rewrite ?length_pmf_start; cbn [length]; try lia.
    + rewrite app_nil_r, list_lookup_fmap, lookup_seq_lt by done.
      cbn. f_equal. apply pmf_exact_perm. symmetry. apply Permutation_rev.
    + intros j Hj. apply pmf_start_exact. by rewrite length_pmf_start.
  - rewrite !lookup_ge_None_2; [done | |].
    + rewrite length_map, length_seq. lia.
    + rewrite length_fold_days, length_pmf_start. lia.
Qed.

Lemma fold_days_sum (qs : list F) :
  length qs <= DAYSPERYEAR -> sum_list (fold_days 1 qs pmf_start) = one.
Proof.
  intros Hqs. rewrite fold_days_pmf_exact by done.
  replace (DAYSPERYEAR + 1) with (S DAYSPERYEAR) by lia.
  by apply pmf_exact_total.
Qed.

(** What the code computes when 366 cells are readable: the tail probability
    of the trials [p[1] .. p[365]]. *)
Lemma prob_rain_of_days_1_to_365 (p : list F) (n : Z) :
  DAYSPERYEAR < length p -> (0 <= n < Z.of_nat DAYSPERYEAR)%Z ->
  prob_rain_more_than_n p n =
  Ok (tail_exact (take DAYSPERYEAR (drop 1 p)) (Z.to_nat n)).
Proof.
  intros Hp Hn. rewrite prob_rain_in_range by done.
  rewrite days_loop_366 by done. cbn [bind].
  set (qs := take DAYSPERYEAR (drop 1 p)).
  assert (Hqs : length qs = DAYSPERYEAR).
  { unfold qs. rewrite length_take, length_drop. lia. }
  unfold tail_sum. rewrite tail_loop.
  2:{ rewrite length_fold_days, length_pmf_start. lia. }
  f_equal. rewrite (tail_exact_sum qs _ DAYSPERYEAR) by lia.
  rewrite fold_days_pmf_exact by lia.
  rewrite (map_ext_in (fun k => nth k (map (pmf_exact qs) (seq 0 (DAYSPERYEAR + 1))) zero)
             (pmf_exact qs)).
  - set (total := sum_list _). ring.
  - intros k Hk. apply in_seq in Hk.
    apply nth_lookup_Some.
    rewrite list_lookup_fmap, lookup_seq_lt by lia. done.
Qed.

(** Trials that cannot succeed leave no probability above any threshold, and
    a first trial that is certain to succeed makes one success certain. *)
Lemma tail_exact_never (m n : nat) : tail_exact (replicate m (zero (F:=F))) n = zero.
Proof.
  unfold tail_exact. induction m as [|m IH].
  - reflexivity.
  - cbn [replicate]. rewrite prob_event_cons, IH. ring.
Qed.

Lemma tail_exact_certain (ps : list F) : tail_exact (one :: ps) 0 = one.
Proof.
  unfold tail_exact. rewrite prob_event_cons.
  rewrite (prob_event_ext ps (fun s => 0 <? S s) (fun _ => true)) by done.
  rewrite prob_event_always. ring.
Qed.

(** If the cell past the end of [p] is readable, every value in it leaves the
    sum of the final array at 1 in exact arithmetic. *)
Lemma pmf_sum_with_366_cells (p : list F) :
  DAYSPERYEAR < length p ->
  exists pmf,
    prob_mass_func p (replicate (DAYSPERYEAR + 1) zero) = Ok pmf /\
    sum_list pmf = one.
Proof.
  intros Hp. eexists. split.
  - rewrite prob_mass_func_start. by apply days_loop_366.
  - apply fold_days_sum. rewrite length_take. lia.
Qed.

(** C5 (the code departs from the claim).  With an array of 365
    probabilities, the cells of [pmf] add up to 1 after each of the first
    364 passes of the loop over the days, but the pass that would fold in
    trial number 365 reads [p[365]] and [prob_mass_func] does not build the
    final array. *)
Theorem pmf_sum_until_last_day (p : list F) :
  length p = DAYSPERYEAR ->
  (forall i, i < DAYSPERYEAR ->
     exists pmf, for_loop (seq 1 i) (fold_day p) pmf_start = Ok pmf /\
                 sum_list pmf = one) /\
  prob_mass_func p (replicate (DAYSPERYEAR + 1) zero) =
  Fault (P_out_of_bounds DAYSPERYEAR).
Proof.
  intros Hp. split.
  - intros i Hi. exists (fold_days 1 (take i (drop 1 p)) pmf_start).
    assert (Hl : length (take i (drop 1 p)) = i).
    { rewrite length_take, length_drop. lia. }
    split.
    + rewrite <- Hl at 1. apply days_loop.
      * lia.
      * rewrite Hl, length_pmf_start. lia.
      * intros k q Hk. apply lookup_take_Some in Hk as [Hk _].
        by rewrite lookup_drop in Hk.
    + apply fold_days_sum. lia.
  - rewrite prob_mass_func_start. by apply days_loop_365.
Qed.

End ExactArithmetic.

(** The rationals obey the ring laws. *)
Lemma Qc_ring : ring_theory (zero (F:=Qc)) one add mul sub Qcopp eq.
Proof. exact Qcrt. Qed.

Lemma pmf_sum_until_last_day_witness :
  length every_day_half = DAYSPERYEAR /\
  (forall i, i < DAYSPERYEAR ->
     exists pmf, for_loop (seq 1 i) (fold_day every_day_half) pmf_start = Ok pmf /\
                 sum_list pmf = one) /\
  prob_mass_func every_day_half (replicate (DAYSPERYEAR + 1) zero) =
  Fault (P_out_of_bounds DAYSPERYEAR).
Proof.
  assert (H1 : length every_day_half = DAYSPERYEAR) by reflexivity.
  exact (conj H1 (pmf_sum_until_last_day Qcopp Qc_ring every_day_half H1)).
Defined.

(** C1 (the code departs from the claim).  Take the year in which it rains
    on January 1 for certain and never on another day, and the threshold 0:
    the probability of more than 0 rainy days is 1.  The code reads [p[1]] to
    [p[365]]: on the array of 365 probabilities it reads past the end, and if
    the cell past the end holds 0.0 its answer is 0. *)
Theorem prob_rain_misses_jan_1 :
  length rain_on_jan_1_only = DAYSPERYEAR /\
  tail_exact rain_on_jan_1_only 0 = one /\
  prob_rain_more_than_n rain_on_jan_1_only 0 = Fault (P_out_of_bounds DAYSPERYEAR) /\
  prob_rain_more_than_n (rain_on_jan_1_only ++ [zero]) 0 = Ok zero.
Proof.
  split; [reflexivity|]. split; [|split].
  - apply (tail_exact_certain Qcopp Qc_ring).
  - rewrite prob_rain_in_range by (unfold DAYSPERYEAR; lia).
    by rewrite days_loop_365.
  - rewrite (prob_rain_of_days_1_to_365 Qcopp Qc_ring).
    + change (take DAYSPERYEAR (drop 1 (rain_on_jan_1_only ++ [zero])))
        with (replicate 365 (zero (F:=Qc))).
      by rewrite (tail_exact_never Qcopp Qc_ring 365).
    + rewrite length_app. change (length rain_on_jan_1_only) with 365.
      unfold DAYSPERYEAR. cbn [length]. lia.
    + unfold DAYSPERYEAR. lia.
Qed.

End RainFacts.

(** * Properties of most_freq_words.c *)

Module WordsFacts.
Import Words.

(** ** Characters *)

(** The tests of ctype.h in the "C" locale agree with the alphabet of the
    specification, on all 256 characters. *)
Lemma isalpha_is_letter (c : ascii) : isalpha c = is_letter c.
Proof. destruct c as [[] [] [] [] [] [] [] []]; vm_compute; reflexivity. Qed.

Lemma tolower_fold_case (c : ascii) : tolower c = fold_case c.
Proof. destruct c as [[] [] [] [] [] [] [] []]; vm_compute; reflexivity. Qed.

Lemma tolower_not_NUL (c : ascii) :
  isalpha c || bool_decide (c = apostrophe) = true -> tolower c <> NUL.
Proof.
  destruct c as [[] [] [] [] [] [] [] []]; vm_compute; intros Hc; discriminate.
Qed.

Lemma contributes_code (cur : list ascii) (c : ascii) (p : nat) :
  (p = 0 <-> cur = []) ->
  contributes cur c = isalpha c || (bool_decide (c = apostrophe) && (0 <? p)).
Proof.
  intros Hp. unfold contributes. rewrite isalpha_is_letter. do 2 f_equal.
  destruct (Nat.ltb_spec 0 p) as [H|H].
  - apply bool_decide_eq_true. intros ->. destruct Hp as [_ Hp]. specialize (Hp eq_refl). lia.
  - apply bool_decide_eq_false. intros Hc. apply Hc, Hp. lia.
Qed.

(** ** The word buffer *)

Lemma c_string_prefix (w rest : list ascii) :
  NUL ∉ w -> c_string (w ++ NUL :: rest) = Ok w.
Proof.
  induction w as [|c w IH]; intros Hw; cbn [app c_string].
  - by rewrite bool_decide_eq_true_2.
  - apply not_elem_of_cons in Hw as [Hc Hw].
    rewrite bool_decide_eq_false_2 by done. by rewrite IH.
Qed.

Lemma holds_pos_0 st cur : holds st cur -> (pos st = 0 <-> cur = []).
Proof.
  intros [_ Hp _ _]. unfold WORD_BUFFER_SIZE in Hp. split.
  - intros H0. destruct cur; [done|]. cbn [length] in Hp. lia.
  - intros ->. cbn [length] in Hp. lia.
Qed.

Lemma flush_word_holds st cur :
  holds st cur ->
  flush_word st =
  (table <- add_word (hash_table st) (take (WORD_BUFFER_SIZE - 1) cur);;
   Ok {| hash_table := table;
         word_buffer := <[pos st := NUL]> (word_buffer st);
         pos := pos st |}).
Proof.
  intros [Hl Hp Hpre Hn]. unfold flush_word, store_char.
  assert (Hlt : pos st < length (word_buffer st)).
  { rewrite Hl, Hp. unfold WORD_BUFFER_SIZE. lia. }
  rewrite decide_True by done. cbn [bind].
  rewrite insert_take_drop by done. rewrite Hpre.
  rewrite c_string_prefix; [done|].
  intros Hin. apply Hn. by apply (subseteq_take (WORD_BUFFER_SIZE - 1) cur).
Qed.

Lemma holds_nil table buf p :
  length buf = WORD_BUFFER_SIZE -> p = 0 ->
  holds {| hash_table := table; word_buffer := buf; pos := p |} [].
Proof. intros Hl ->. split; cbn; try done. apply not_elem_of_nil. Qed.

Lemma holds_letter st cur c :
  holds st cur -> contributes cur c = true ->
  exists st', read_char c st = Ok st' /\ hash_table st' = hash_table st /\
              holds st' (cur ++ [fold_case c]).
Proof.
  intros Hh Hc. pose proof Hh as [Hl Hp Hpre Hn].
  rewrite (contributes_code cur c (pos st)) in Hc by (by apply holds_pos_0).
  unfold read_char. rewrite Hc.
  assert (Hnn : NUL ∉ cur ++ [fold_case c]).
  { rewrite not_elem_of_app. split; [done|].
    rewrite list_elem_of_singleton. intros Heq. rewrite <- tolower_fold_case in Heq.
    symmetry in Heq. revert Heq. apply tolower_not_NUL.
    apply orb_true_iff in Hc as [->|Hc]; [done|].
    apply andb_true_iff in Hc as [-> _]. apply orb_true_r. }
  destruct (Nat.ltb_spec (pos st) (WORD_BUFFER_SIZE - 1)) as [Hlt|Hge].
  - unfold store_char. rewrite decide_True by (rewrite Hl; unfold WORD_BUFFER_SIZE in *; lia).
    cbn [bind]. eexists. split; [done|]. split; [done|].
    assert (Hlen : length cur = pos st) by lia.
    split; cbn [word_buffer pos hash_table].
    + by rewrite length_insert.
    + rewrite length_app. cbn [length]. lia.
    + rewrite tolower_fold_case.
      replace (pos st + 1) with (S (pos st)) by lia.
      rewrite (take_S_r _ _ (fold_case c)).
      2:{ apply list_lookup_insert_eq. rewrite Hl. unfold WORD_BUFFER_SIZE in *. lia. }
      rewrite take_insert_ge by lia. rewrite Hpre.
      rewrite take_ge by lia.
      rewrite take_ge; [done|]. rewrite length_app. cbn [length]. lia.
    + done.
  - eexists. split; [done|]. split; [done|].
    split.
    + done.
    + rewrite length_app. cbn [length]. lia.
    + rewrite Hpre. rewrite take_app_le by lia. done.
    + done.
Qed.

(** ** The reading loop counts the tokens of the specification, cut to 149
    characters *)

Lemma read_scan (s : list ascii) (st : reader) (cur : list ascii) :
  holds st cur ->
  (st' <- read_chars s st;; at_EOF st') =
  add_words (map (take (WORD_BUFFER_SIZE - 1)) (scan cur s)) (hash_table st).
Proof.
  revert st cur. induction s as [|c s IH]; intros st cur Hh.
  - cbn [read_chars bind scan]. unfold at_EOF.
    pose proof (holds_pos_0 st cur Hh) as H0.
    destruct (Nat.ltb_spec 0 (pos st)) as [Hp|Hp].
    + destruct cur as [|a cur]; [destruct H0 as [_ H0]; specialize (H0 eq_refl); lia|].
      rewrite (flush_word_holds st _ Hh). cbn [emit map add_words].
      by destruct (add_word _ _).
    + destruct H0 as [H0 _]. rewrite H0 by lia. done.
  - cbn [read_chars scan]. destruct (contributes cur c) eqn:Hc.
    + destruct (holds_letter st cur c Hh Hc) as (st' & -> & <- & Hh').
      cbn [bind]. by apply IH.
    + pose proof (holds_pos_0 st cur Hh) as H0.
      rewrite (contributes_code cur c (pos st)) in Hc by done.
      unfold read_char. rewrite Hc.
      destruct (Nat.ltb_spec 0 (pos st)) as [Hp|Hp].
      * destruct cur as [|a cur]; [destruct H0 as [_ H0]; specialize (H0 eq_refl); lia|].
        rewrite (flush_word_holds st _ Hh). cbn [emit app map add_words].
        destruct (add_word _ _) as [table|e]; [|done]. cbn [bind hash_table word_buffer].
        rewrite (IH _ []); [done|].
        apply holds_nil; [|done].
        rewrite length_insert. apply Hh.
      * destruct H0 as [H0 _]. rewrite H0 in * by lia. cbn [bind emit app].
        by apply IH.
Qed.

Lemma read_file_from_counted (junk s : list ascii) :
  length junk = WORD_BUFFER_SIZE ->
  read_file_from junk s =
  add_words (counted_words s) (replicate (Z.to_nat HASH_TABLE_SIZE) []).
Proof.
  intros Hj. unfold read_file_from, counted_words, spec_tokens.
  rewrite (read_scan s _ []); [done|]. by apply holds_nil.
Qed.

Lemma read_file_counted (s : list ascii) :
  read_file s = add_words (counted_words s) (replicate (Z.to_nat HASH_TABLE_SIZE) []).
Proof. apply read_file_from_counted, length_replicate. Qed.

(** ** The hash table *)

Lemma djb2_hash_range (w : list ascii) :
  (0 <= djb2_hash w < HASH_TABLE_SIZE)%Z.
Proof. unfold djb2_hash. apply Z.mod_pos_bound. reflexivity. Qed.

Lemma occurrences_snoc (w w' : list ascii) (toks : list (list ascii)) :
  occurrences w (toks ++ [w']) =
  occurrences w toks + (if decide (w = w') then 1 else 0).
Proof.
  unfold occurrences. rewrite filter_app, length_app. f_equal.
  rewrite filter_cons, filter_nil. by destruct (decide (w = w')).
Qed.

Lemma occurrences_le (w : list ascii) (toks : list (list ascii)) :
  occurrences w toks <= length toks.
Proof. apply length_filter. Qed.

Lemma occurrences_0 (w : list ascii) (toks : list (list ascii)) :
  w ∉ toks -> occurrences w toks = 0.
Proof.
  intros Hw. unfold occurrences.
  destruct (filter (eq w) toks) as [|x l] eqn:E; [done|].
  assert (Hx : x ∈ filter (eq w) toks) by (rewrite E; left).
  apply list_elem_of_filter in Hx as [<- Hx]. done.
Qed.

(** What the walk along a chain finds. *)
Lemma count_up_spec (w : list ascii) (chain : list WordFreqNode) :
  match count_up w chain with
  | None => forall node, node ∈ chain -> word node <> w
  | Some r =>
      exists before node after,
        chain = before ++ node :: after /\ word node = w /\
        (forall x, x ∈ before -> word x <> w) /\
        r = if (count node <? INT_MAX)%Z
            then Ok (before ++ {| word := w; count := (count node + 1)%Z |} :: after)
            else Fault Signed_overflow
  end.
Proof.
  induction chain as [|node next IH]; cbn [count_up].
  - intros node Hn. by apply elem_of_nil in Hn.
  - destruct (bool_decide (word node = w)) eqn:E.
    + apply bool_decide_eq_true in E. exists [], node, next.
      split; [done|]. split; [done|]. split.
      * intros x Hx. by apply elem_of_nil in Hx.
      * by rewrite E.
    + apply bool_decide_eq_false in E.
      destruct (count_up w next) as [r|].
      * destruct IH as (before & nd & after & -> & Hw & Hb & ->).
        exists (node :: before), nd, after.
        split; [done|]. split; [done|]. split.
        -- intros x Hx. apply elem_of_cons in Hx as [->|Hx]; [done | by apply Hb].
        -- by destruct (count nd <? INT_MAX)%Z.
      * intros x Hx. apply elem_of_cons in Hx as [->|Hx]; [done | by apply IH].
Qed.

Lemma table_inv_empty : table_inv (replicate (Z.to_nat HASH_TABLE_SIZE) []) [].
Proof.
  split.
  - apply length_replicate.
  - intros i chain Hi. apply lookup_replicate in Hi as [-> _]. constructor.
  - intros i chain node Hi Hn. apply lookup_replicate in Hi as [-> _].
    by apply elem_of_nil in Hn.
  - intros w Hw. by apply elem_of_nil in Hw.
Qed.

(** Replacing the chain of the word [w] by a chain that is right for the
    words counted so far and [w] keeps the invariant. *)
Lemma table_inv_update table toks w chain chain' :
  table_inv table toks ->
  table !! Z.to_nat (djb2_hash w) = Some chain ->
  NoDup (map word chain') ->
  (forall node, node ∈ chain' ->
     Z.to_nat (djb2_hash (word node)) = Z.to_nat (djb2_hash w) /\
     word node ∈ toks ++ [w] /\
     count node = Z.of_nat (occurrences (word node) (toks ++ [w]))) ->
  (forall node, node ∈ chain -> exists node', node' ∈ chain' /\ word node' = word node) ->
  (exists node', node' ∈ chain' /\ word node' = w) ->
  table_inv (<[Z.to_nat (djb2_hash w) := chain']> table) (toks ++ [w]).
Proof.
  intros [Hlen Hnd Hnode Hfound] Hh Hnd' Hnode' Hkeep Hnew.
  set (h := Z.to_nat (djb2_hash w)) in *.
  assert (Hlt : h < length table) by (eapply lookup_lt_Some; eauto).
  split.
  - by rewrite length_insert.
  - intros i c Hi. destruct (decide (i = h)) as [->|Hne].
    + rewrite list_lookup_insert_eq in Hi by done. by injection Hi as <-.
    + rewrite list_lookup_insert_ne in Hi by done. eauto.
  - intros i c node Hi Hin. destruct (decide (i = h)) as [->|Hne].
    + rewrite list_lookup_insert_eq in Hi by done. injection Hi as <-. eauto.
    + rewrite list_lookup_insert_ne in Hi by done.
      destruct (Hnode i c node Hi Hin) as (H1 & H2 & H3).
      split; [done|]. split; [apply elem_of_app; by left|].
      rewrite occurrences_snoc, decide_False; [by rewrite Nat.add_0_r|].
      intros Heq. apply Hne. rewrite <- H1, Heq. done.
  - intros w' Hw'. apply elem_of_app in Hw' as [Hw'|Hw'].
    + destruct (Hfound w' Hw') as (c & node & Hc & Hin & Hword).
      destruct (decide (Z.to_nat (djb2_hash w') = h)) as [Heq|Hne].
      * rewrite Heq in *. rewrite Hh in Hc. injection Hc as <-.
        destruct (Hkeep node Hin) as (node' & Hin' & Hword').
        exists chain', node'. rewrite list_lookup_insert_eq by done.
        split; [done|]. split; [done|]. congruence.
      * exists c, node. by rewrite list_lookup_insert_ne.
    + apply list_elem_of_singleton in Hw' as ->.
      destruct Hnew as (node' & Hin' & Hword').
      exists chain', node'. by rewrite list_lookup_insert_eq.
Qed.

(** Counting one more word, as long as the counts stay below [INT_MAX]. *)
Lemma add_word_inv table toks w :
  table_inv table toks -> (Z.of_nat (length toks) < INT_MAX)%Z ->
  exists table', add_word table w = Ok table' /\ table_inv table' (toks ++ [w]).
Proof.
  intros Hinv Hlen. pose proof Hinv as [Hl Hnd Hnode Hfound].
  unfold add_word. set (h := Z.to_nat (djb2_hash w)).
  destruct (lookup_lt_is_Some_2 table h) as [chain Hchain].
  { rewrite Hl. unfold h. pose proof (djb2_hash_range w). lia. }
  rewrite Hchain. pose proof (count_up_spec w chain) as Hspec.
  destruct (count_up w chain) as [r|].
  - destruct Hspec as (before & node & after & -> & Hw & Hb & ->).
    assert (Hin : node ∈ before ++ node :: after).
    { apply elem_of_app. right. left. }
    destruct (Hnode h _ node Hchain Hin) as (_ & _ & Hcount).
    pose proof (occurrences_le (word node) toks) as Hle.
    destruct (Z.ltb_spec (count node) INT_MAX) as [_|Hge]; [|lia].
    cbn [bind]. eexists. split; [done|].
    pose proof (Hnd h _ Hchain) as Hnd0.
    rewrite map_app in Hnd0. cbn [map] in Hnd0. rewrite Hw in Hnd0.
    apply NoDup_app in Hnd0 as (Hnd1 & Hnd2 & Hnd3).
    apply NoDup_cons in Hnd3 as [Hnd3 Hnd4].
    apply (table_inv_update table toks w (before ++ node :: after)); try done.
    + rewrite map_app. cbn [map word]. apply NoDup_app.
      split; [done|]. split; [done|]. by apply NoDup_cons.
    + intros nd Hnd'. apply elem_of_app in Hnd' as [Hnd'|Hnd'].
      * destruct (Hnode h _ nd Hchain) as (H1 & H2 & H3).
        { apply elem_of_app. by left. }
        split; [done|]. split; [apply elem_of_app; by left|].
        rewrite occurrences_snoc, decide_False by (by apply Hb).
        by rewrite Nat.add_0_r.
      * apply elem_of_cons in Hnd' as [->|Hnd'].
        -- cbn [word count]. split; [done|].
           split; [apply elem_of_app; right; left|].
           rewrite occurrences_snoc, decide_True by done.
           rewrite Hcount, Hw. lia.
        -- destruct (Hnode h _ nd Hchain) as (H1 & H2 & H3).
           { apply elem_of_app. right. by right. }
           split; [done|]. split; [apply elem_of_app; by left|].
           rewrite occurrences_snoc, decide_False; [by rewrite Nat.add_0_r|].
           intros Heq. apply Hnd3. rewrite <- Heq.
           apply list_elem_of_fmap. by exists nd.
    + intros nd Hnd'. apply elem_of_app in Hnd' as [Hnd'|Hnd'].
      * exists nd. split; [apply elem_of_app; by left | done].
      * apply elem_of_cons in Hnd' as [->|Hnd'].
        -- eexists. split; [apply elem_of_app; right; left|]. by cbn.
        -- exists nd. split; [apply elem_of_app; right; by right | done].
    + eexists. split; [apply elem_of_app; right; left|]. done.
  - eexists. split; [done|].
    assert (Hfresh : w ∉ toks).
    { intros Hw. destruct (Hfound w Hw) as (c & nd & Hc & Hin & Hword).
      fold h in Hc. rewrite Hchain in Hc. injection Hc as <-.
      by apply (Hspec nd). }
    apply (table_inv_update table toks w chain); try done.
    + cbn [map create_WordFreqNode word]. apply NoDup_cons. split; [|eauto].
      intros Hin. apply list_elem_of_fmap in Hin as (nd & Hword & Hin).
      by apply (Hspec nd).
    + intros nd Hnd'. apply elem_of_cons in Hnd' as [->|Hnd'].
      * cbn [create_WordFreqNode word count]. split; [done|].
        split; [apply elem_of_app; right; left|].
        rewrite occurrences_snoc, decide_True, occurrences_0 by done. done.
      * destruct (Hnode h _ nd Hchain Hnd') as (H1 & H2 & H3).
        split; [done|]. split; [apply elem_of_app; by left|].
        rewrite occurrences_snoc, decide_False; [by rewrite Nat.add_0_r|].
        intros Heq. by apply (Hspec nd).
    + intros nd Hnd'. exists nd. split; [by right | done].
    + eexists. split; [left|]. done.
Qed.

Lemma add_words_inv ws table toks :
  table_inv table toks ->
  (Z.of_nat (length toks + length ws) <= INT_MAX)%Z ->
  exists table', add_words ws table = Ok table' /\ table_inv table' (toks ++ ws).
Proof.
  revert table toks. induction ws as [|w ws IH]; intros table toks Hinv Hlen.
  - exists table. by rewrite app_nil_r.
  - cbn [add_words]. cbn [length] in Hlen.
    destruct (add_word_inv table toks w Hinv) as (table' & -> & Hinv'); [lia|].
    cbn [bind]. destruct (IH table' (toks ++ [w]) Hinv') as (table'' & -> & Hinv'').
    { rewrite length_app. cbn [length]. lia. }
    exists table''. by rewrite <- app_assoc in Hinv''.
Qed.

(** From the chains to the nodes of the table. *)
Lemma elem_of_concat {A} (x : A) (ls : list (list A)) :
  x ∈ concat ls <-> exists i l, ls !! i = Some l /\ x ∈ l.
Proof.
  induction ls as [|l ls IH]; cbn [concat].
  - split; [intros H; by apply elem_of_nil in H | by intros (i & l & H & _)].
  - rewrite elem_of_app, IH. split.
    + intros [H|(i & l' & H1 & H2)]; [by exists 0, l | by exists (S i), l'].
    + intros ([|i] & l' & H1 & H2).
      * left. by injection H1 as ->.
      * right. by exists i, l'.
Qed.

Lemma NoDup_concat_keyed {A K} (key : A -> K) (f : K -> nat)
  (ls : list (list A)) (off : nat) :
  (forall i l, ls !! i = Some l ->
     NoDup (map key l) /\ forall x, x ∈ l -> f (key x) = off + i) ->
  NoDup (map key (concat ls)).
Proof.
  revert off. induction ls as [|l ls IH]; intros off Hls; cbn [concat map].
  - constructor.
  - rewrite map_app. apply NoDup_app. split; [|split].
    + apply (Hls 0 l eq_refl).
    + intros k Hk Hk'.
      apply list_elem_of_fmap in Hk as (x & -> & Hx).
      apply list_elem_of_fmap in Hk' as (y & Hxy & Hy).
      apply elem_of_concat in Hy as (j & l' & Hj & Hy).
      destruct (Hls 0 l eq_refl) as [_ H0]. specialize (H0 x Hx).
      destruct (Hls (S j) l' Hj) as [_ H1]. specialize (H1 y Hy).
      rewrite Hxy in H0. lia.
    + apply (IH (S off)). intros i l' Hi.
      destruct (Hls (S i) l' Hi) as [H1 H2]. split; [done|].
      intros x Hx. rewrite (H2 x Hx). lia.
Qed.

Lemma table_inv_counts table toks :
  table_inv table toks -> counts_exactly table toks.
Proof.
  intros [Hl Hnd Hnode Hfound]. unfold counts_exactly, entries. split; [|split].
  - apply (NoDup_concat_keyed word (fun w => Z.to_nat (djb2_hash w)) table 0).
    intros i chain Hi. split; [eauto|].
    intros node Hin. by destruct (Hnode i chain node Hi Hin) as (-> & _).
  - intros node Hin. apply elem_of_concat in Hin as (i & chain & Hi & Hin).
    by destruct (Hnode i chain node Hi Hin) as (_ & H2 & H3).
  - intros w Hw. destruct (Hfound w Hw) as (chain & node & Hc & Hin & Hword).
    exists node. split; [|done]. apply elem_of_concat. eauto.
Qed.

(** The count the table holds for a word is the number of its occurrences. *)
Lemma counts_exactly_count_of table toks w :
  counts_exactly table toks -> count_of table w = Z.of_nat (occurrences w toks).
Proof.
  intros (Hnd & Hnode & Hfound). unfold count_of.
  destruct (list_find _ _) as [[i node]|] eqn:E.
  - apply list_find_Some in E as (Hi & <- & _).
    apply list_elem_of_lookup_2 in Hi. by destruct (Hnode node Hi).
  - rewrite occurrences_0; [done|]. intros Hw.
    destruct (Hfound w Hw) as (node & Hin & Hword).
    rewrite list_find_None, Forall_forall in E. by apply (E node).
Qed.

(** ** Tokens *)

Lemma length_emit (cur : list ascii) : length (emit cur) <= 1.
Proof. destruct cur; cbn; lia. Qed.

Lemma length_scan (cur s : list ascii) :
  length (scan cur s) <= length s + length (emit cur).
Proof.
  revert cur. induction s as [|c s IH]; intros cur; cbn [scan length].
  - lia.
  - destruct (contributes cur c).
    + specialize (IH (cur ++ [fold_case c])).
      pose proof (length_emit (cur ++ [fold_case c])). lia.
    + rewrite length_app. specialize (IH []). cbn [emit length] in IH. lia.
Qed.

Lemma length_counted_words (s : list ascii) :
  length (counted_words s) <= length s.
Proof.
  unfold counted_words, spec_tokens. rewrite length_map.
  pose proof (length_scan [] s). cbn [emit length] in *. lia.
Qed.

(** The result of reading a file of at most [INT_MAX] characters. *)
Lemma read_file_inv (s : list ascii) :
  (Z.of_nat (length s) <= INT_MAX)%Z ->
  exists table, read_file s = Ok table /\ table_inv table (counted_words s).
Proof.
  intros Hs. rewrite read_file_counted.
  apply (add_words_inv (counted_words s) _ [] table_inv_empty).
  pose proof (length_counted_words s). cbn [length]. lia.
Qed.

Lemma contributes_word_char cur c :
  word_char c = false -> contributes cur c = false.
Proof.
  unfold word_char, contributes. intros H.
  apply orb_false_iff in H as [-> ->]. done.
Qed.

(** A character outside words separates the tokens before it from the tokens
    after it. *)
Lemma scan_separator (cur before after : list ascii) (c : ascii) :
  word_char c = false ->
  scan cur (before ++ c :: after) = scan cur (before ++ [c]) ++ scan [] after.
Proof.
  intros Hc. revert cur. induction before as [|b before IH]; intros cur.
  - cbn [app scan]. rewrite !contributes_word_char by done.
    cbn [scan emit]. by rewrite !app_nil_r.
  - cbn [app scan]. destruct (contributes cur b).
    + apply IH.
    + by rewrite IH, app_assoc.
Qed.

(** A run of word characters extends the word in progress; it starts a word
    if it starts with a letter. *)
Lemma scan_run (cur run after : list ascii) :
  Forall (fun c => word_char c = true) run ->
  cur <> [] ->
  scan cur (run ++ after) = scan (cur ++ map fold_case run) after.
Proof.
  intros Hrun. revert cur. induction Hrun as [|c run Hc _ IH]; intros cur Hcur.
  - by rewrite app_nil_r.
  - cbn [app scan map].
    replace (contributes cur c) with true.
    + rewrite IH by (by destruct cur). by rewrite <- app_assoc.
    + unfold contributes, word_char in *.
      rewrite (bool_decide_eq_true_2 (cur <> [])) by done.
      by rewrite andb_true_r.
Qed.

Lemma scan_word_run (run after : list ascii) :
  word_run run ->
  scan [] (run ++ after) = scan (map fold_case run) after.
Proof.
  destruct run as [|c run]; [done|]. intros [Hc Hrun].
  cbn [app scan map]. unfold contributes at 1. rewrite Hc. cbn [orb app].
  by rewrite (scan_run [fold_case c] run after Hrun).
Qed.

Lemma scan_end_of_word (cur after : list ascii) :
  cur <> [] -> starts_outside_word after ->
  scan cur after = cur :: scan [] after.
Proof.
  intros Hcur Ha. destruct after as [|c after]; cbn [scan].
  - by destruct cur.
  - cbn in Ha. rewrite !contributes_word_char by done.
    by destruct cur.
Qed.

(** A maximal run of word characters is one token of the specification. *)
Lemma spec_tokens_run (before run after : list ascii) :
  ends_outside_word before -> word_run run -> starts_outside_word after ->
  spec_tokens (before ++ run ++ after) =
  spec_tokens before ++ [map fold_case run] ++ spec_tokens after.
Proof.
  intros Hb Hrun Ha. unfold spec_tokens.
  assert (Hmid : scan [] (run ++ after) = map fold_case run :: scan [] after).
  { rewrite scan_word_run by done. apply scan_end_of_word; [|done].
    destruct run; [done|]. done. }
  destruct (last before) as [c|] eqn:El.
  - apply last_Some in El as [before' ->]. unfold ends_outside_word in Hb.
    rewrite last_snoc in Hb.
    rewrite <- app_assoc. cbn [app].
    rewrite scan_separator by done. by rewrite Hmid.
  - apply last_None in El as ->. cbn [app scan emit]. by rewrite Hmid.
Qed.

Lemma counted_words_run (before run after : list ascii) :
  ends_outside_word before -> word_run run -> starts_outside_word after ->
  counted_words (before ++ run ++ after) =
  counted_words before ++ [take (WORD_BUFFER_SIZE - 1) (map tolower run)]
    ++ counted_words after.
Proof.
  intros Hb Hrun Ha. unfold counted_words.
  rewrite spec_tokens_run by done. rewrite !map_app. cbn [map].
  do 4 f_equal. apply map_ext. intros c. by rewrite tolower_fold_case.
Qed.

(** ** The counts of the words *)

(** C6, as amended.  Reading a file counts, one after the other, the tokens
    that the rule of the specification yields, each cut to its first 149
    characters; and for a file of at most [INT_MAX] characters it succeeds
    and leaves a table with exactly one node for each distinct word counted,
    holding the number of its occurrences. *)
Theorem read_file_counts_cut_tokens (s : list ascii) :
  read_file s =
  add_words (map (take (WORD_BUFFER_SIZE - 1)) (spec_tokens s))
            (replicate (Z.to_nat HASH_TABLE_SIZE) []) /\
  ((Z.of_nat (length s) <= INT_MAX)%Z ->
   exists table,
     read_file s = Ok table /\
     counts_exactly table (map (take (WORD_BUFFER_SIZE - 1)) (spec_tokens s))).
Proof.
  split; [apply read_file_counted|].
  intros Hs. destruct (read_file_inv s Hs) as (table & Hr & Hinv).
  exists table. split; [done|]. by apply table_inv_counts.
Qed.

Lemma read_file_counts_cut_tokens_witness :
  (Z.of_nat (length (text "Rain, rain, go away! Don't come again.")) <= INT_MAX)%Z /\
  exists table,
    read_file (text "Rain, rain, go away! Don't come again.") = Ok table /\
    counts_exactly table
      (map (take (WORD_BUFFER_SIZE - 1))
           (spec_tokens (text "Rain, rain, go away! Don't come again."))).
Proof.
  assert (H1 : (Z.of_nat (length (text "Rain, rain, go away! Don't come again."))
                <= INT_MAX)%Z) by (vm_compute; discriminate).
  exact (conj H1 (proj2 (read_file_counts_cut_tokens _) H1)).
Defined.

(** C6 (counterexample).  A file that is one run of 150 letters: the rule of
    the specification yields the run as its one token, and the table has no
    node for it. *)
Lemma long_word_is_not_counted_whole :
  spec_tokens long_run = [long_run] /\
  exists table,
    read_file long_run = Ok table /\
    count_of table long_run = 0%Z /\
    ~ counts_exactly table (spec_tokens long_run).
Proof.
  split; [by vm_compute|].
  destruct (read_file_inv long_run) as (table & Hr & Hinv); [by vm_compute|].
  apply table_inv_counts in Hinv.
  change (counted_words long_run) with [take 149 long_run] in Hinv.
  exists table. split; [done|]. split.
  - rewrite (counts_exactly_count_of _ _ _ Hinv). by vm_compute.
  - change (spec_tokens long_run) with [long_run].
    intros (_ & _ & Hfound).
    destruct (Hfound long_run) as (node & Hin & Hword); [left|].
    destruct Hinv as (_ & Hnode & _).
    destruct (Hnode node Hin) as [Hw _]. rewrite Hword in Hw.
    apply list_elem_of_singleton in Hw.
    apply (f_equal length) in Hw. vm_compute in Hw. discriminate.
Qed.



(** The two runs of the example are counted as the same word. *)
Lemma same_prefix_same_word :
  exists table,
    read_file (run_ax ++ after_run_ax) = Ok table /\
    entries table = [{| word := replicate 149 "a"%char; count := 2 |}].
Proof. eexists. split; vm_compute; reflexivity. Qed.

(** The count of a word cannot pass [INT_MAX]: the increment has no defined
    result there. *)
Lemma count_up_at_INT_MAX (w : list ascii) :
  count_up w [{| word := w; count := INT_MAX |}] = Some (Fault Signed_overflow).
Proof. cbn. by rewrite bool_decide_eq_true_2. Qed.

(** ** The failures of the program *)

Section Failures.
Variable fopen : string -> option (list ascii).
Variable qsort :
  (WordFreqNode -> WordFreqNode -> Z) -> list WordFreqNode -> list WordFreqNode.


Lemma main_positive (path : string) (n : Z) :
  (0 < n)%Z ->
  main fopen qsort path n =
  (frequent_words <- find_frequent_words fopen qsort path n;;
   match frequent_words with
   | None => Ok (EXIT_FAILURE InputUnavailable)
   | Some frequent_words =>
       printed <- print_words frequent_words n;; Ok (EXIT_SUCCESS printed)
   end).
Proof. intros Hn. unfold main. by destruct (Z.leb_spec n 0); [lia|]. Qed.



End Failures.


(** ** From the table to the array of words *)

Lemma push_chain_spec (chain wll : list WordFreqNode) :
  (Z.of_nat (length wll) <= HASH_TABLE_SIZE)%Z ->
  push_chain chain wll =
  if decide (Z.of_nat (length wll + length chain) <= HASH_TABLE_SIZE)%Z
  then Ok (wll ++ chain)
  else Fault (Word_list_overrun (Z.to_nat HASH_TABLE_SIZE)).
Proof.
  revert wll. induction chain as [|node next IH]; intros wll Hwll;
    cbn [push_chain length].
  - rewrite decide_True by lia. by rewrite app_nil_r.
  - unfold push_node. destruct (decide (Z.of_nat (length wll) < HASH_TABLE_SIZE)%Z).
    + cbn [bind]. rewrite IH by (rewrite length_app; cbn [length]; lia).
      rewrite length_app. cbn [length]. rewrite <- app_assoc. cbn [app].
      destruct (decide (Z.of_nat (length wll + 1 + length next) <= HASH_TABLE_SIZE)%Z),
        (decide (Z.of_nat (length wll + S (length next)) <= HASH_TABLE_SIZE)%Z);
        done || lia.
    + cbn [bind]. rewrite decide_False by lia. do 2 f_equal. lia.
Qed.

Lemma collect_loop (table : list (list WordFreqNode)) (k m : nat)
  (wll : list WordFreqNode) :
  k + m <= length table ->
  (Z.of_nat (length wll) <= HASH_TABLE_SIZE)%Z ->
  for_loop (seq k m)
    (fun i wll =>
       match table !! i with
       | Some chain => push_chain chain wll
       | None => Fault (Hash_table_overrun i)
       end) wll =
  if decide (Z.of_nat (length wll + length (concat (take m (drop k table))))
             <= HASH_TABLE_SIZE)%Z
  then Ok (wll ++ concat (take m (drop k table)))
  else Fault (Word_list_overrun (Z.to_nat HASH_TABLE_SIZE)).
Proof.
  revert k wll. induction m as [|m IH]; intros k wll Hk Hwll.
  - rewrite take_0. cbn [seq for_loop concat length].
    rewrite decide_True by lia. by rewrite app_nil_r.
  - cbn [seq for_loop].
    destruct (lookup_lt_is_Some_2 table k) as [chain Hchain]; [lia|].
    rewrite Hchain, (drop_S _ _ _ Hchain). cbn [take concat].
    rewrite push_chain_spec by done. rewrite length_app.
    destruct (decide (Z.of_nat (length wll + length chain) <= HASH_TABLE_SIZE)%Z)
      as [Hfit|Hfit]; cbn [bind].
    + rewrite IH by (rewrite ?length_app; lia).
      rewrite length_app, <- app_assoc.
      destruct (decide (Z.of_nat (length wll + length chain +
                                  length (concat (take m (drop (S k) table))))
                        <= HASH_TABLE_SIZE)%Z),
        (decide (Z.of_nat (length wll + (length chain +
                                  length (concat (take m (drop (S k) table)))))
                        <= HASH_TABLE_SIZE)%Z); done || lia.
    + rewrite decide_False by lia. done.
Qed.

(** The array of nodes holds the nodes of the table, if they are at most
    10000; the loop writes past the end of the array if they are more. *)
Lemma collect_spec (table : list (list WordFreqNode)) :
  length table = Z.to_nat HASH_TABLE_SIZE ->
  collect table =
  if decide (Z.of_nat (length (entries table)) <= HASH_TABLE_SIZE)%Z
  then Ok (entries table)
  else Fault (Word_list_overrun (Z.to_nat HASH_TABLE_SIZE)).
Proof.
  intros Hl. unfold collect. rewrite collect_loop.
  - cbn [length app Nat.add]. rewrite drop_0, <- Hl, firstn_all. done.
  - lia.
  - cbn [length]. unfold HASH_TABLE_SIZE. lia.
Qed.

(** The array that is returned: the words of the first [n] nodes, and cells
    that were never written if there are fewer than [n] nodes. *)
Lemma gather_loop (sorted : list WordFreqNode) (n k : nat) :
  k <= n ->
  for_loop (seq 0 k)
    (fun i res =>
       if i <? length sorted then
         match sorted !! i with
         | Some node =>
             if decide (i < length res) then Ok (<[i := Str (word node)]> res)
             else Fault (Result_overrun i)
         | None => Fault (Word_list_overrun i)
         end
       else Ok res) (replicate n Indeterminate) =
  Ok (map (fun node => Str (word node)) (take k sorted)
        ++ replicate (n - min k (length sorted)) Indeterminate).
Proof.
  induction k as [|k IH]; intros Hk.
  - cbn [seq for_loop take map app]. by rewrite Nat.sub_0_r.
  - rewrite seq_S, for_loop_app, IH by lia. cbn [bind for_loop Nat.add].
    destruct (Nat.ltb_spec k (length sorted)) as [Hlt|Hge].
    + destruct (lookup_lt_is_Some_2 sorted k Hlt) as [node E]. rewrite E.
      rewrite decide_True.
      2:{ rewrite length_app, length_map, length_take, length_replicate. lia. }
      cbn [bind]. f_equal.
      rewrite (take_S_r _ _ _ E), map_app. cbn [map].
      rewrite insert_app_r_alt by (rewrite length_map, length_take; lia).
      rewrite length_map, length_take.
      replace (k - min k (length sorted)) with 0 by lia.
      replace (n - min k (length sorted)) with (S (n - min (S k) (length sorted))) by lia.
      cbn [replicate]. by rewrite <- app_assoc.
    + cbn [bind]. f_equal.
      rewrite !take_ge by lia. do 2 f_equal. lia.
Qed.

Lemma gather_spec (sorted : list WordFreqNode) (n : Z) :
  gather sorted (length sorted) n =
  Ok (map (fun node => Str (word node)) (take (Z.to_nat n) sorted)
        ++ replicate (Z.to_nat n - length sorted) Indeterminate).
Proof.
  unfold gather. rewrite gather_loop by done. do 3 f_equal. lia.
Qed.

(** ** Sorting *)

Lemma insert_by_perm {A} (cmp : A -> A -> Z) (x : A) (l : list A) :
  Permutation (insert_by cmp x l) (x :: l).
Proof.
  induction l as [|y l IH]; cbn [insert_by]; [done|].
  destruct (cmp x y <=? 0)%Z; [done|].
  rewrite IH. apply perm_swap.
Qed.

Lemma insertion_sort_perm {A} (cmp : A -> A -> Z) (l : list A) :
  Permutation (insertion_sort cmp l) l.
Proof.
  induction l as [|x l IH]; cbn [insertion_sort foldr]; [done|].
  fold (insertion_sort cmp l). by rewrite insert_by_perm, IH.
Qed.

Lemma insert_by_sorted (x : WordFreqNode) (l : list WordFreqNode) :
  Sorted (fun a b => (compare_by_frequency a b <= 0)%Z) l ->
  Sorted (fun a b => (compare_by_frequency a b <= 0)%Z)
         (insert_by compare_by_frequency x l).
Proof.
  induction 1 as [|y l Hs IH Hhd]; cbn [insert_by].
  - repeat constructor.
  - destruct (Z.leb_spec (compare_by_frequency x y) 0) as [Hle|Hgt].
    + constructor; [by constructor | by constructor].
    + constructor; [done|].
      destruct Hhd as [|z l Hyz]; cbn [insert_by].
      * constructor. unfold compare_by_frequency in *. lia.
      * destruct (compare_by_frequency x z <=? 0)%Z; constructor; [|done].
        unfold compare_by_frequency in *. lia.
Qed.

(** Sorting by insertion does what [qsort] promises. *)
Lemma insertion_sort_contract : qsort_contract (@insertion_sort WordFreqNode).
Proof.
  intros l. split; [apply insertion_sort_perm|].
  induction l as [|x l IH]; cbn [insertion_sort foldr]; [constructor|].
  by apply insert_by_sorted.
Qed.

Lemma Sorted_descending (l : list WordFreqNode) :
  Sorted (fun a b => (compare_by_frequency a b <= 0)%Z) l ->
  StronglySorted descending l.
Proof.
  intros Hs. apply Sorted_StronglySorted.
  - intros a b c. unfold descending. lia.
  - induction Hs as [|x l Hs IH Hhd]; constructor; [done|].
    destruct Hhd; constructor. unfold descending, compare_by_frequency in *. lia.
Qed.

(** ** What [find_frequent_words] returns *)

Section Result.
Variable fopen : string -> option (list ascii).
Variable qsort :
  (WordFreqNode -> WordFreqNode -> Z) -> list WordFreqNode -> list WordFreqNode.
Hypothesis qsort_ok : qsort_contract qsort.

(** For a file that opens and has at most [INT_MAX] characters: the nodes of
    the table count the words exactly; sorted, they are in descending order
    of their counts; the array returned has [n] cells, the first
    [min n count] of which hold the words of the first nodes, the others
    nothing that was written; and with more than 10000 distinct words the
    function writes past the end of [word_linked_list]. *)
Lemma find_frequent_words_spec (path : string) (s : list ascii) (n : Z) :
  fopen path = Some s -> (Z.of_nat (length s) <= INT_MAX)%Z ->
  exists table sorted,
    read_file s = Ok table /\
    counts_exactly table (counted_words s) /\
    sorted = qsort compare_by_frequency (entries table) /\
    Permutation sorted (entries table) /\
    StronglySorted descending sorted /\
    find_frequent_words fopen qsort path n =
    if decide (Z.of_nat (length (entries table)) <= HASH_TABLE_SIZE)%Z
    then Ok (Some (map (fun node => Str (word node)) (take (Z.to_nat n) sorted)
                     ++ replicate (Z.to_nat n - length sorted) Indeterminate))
    else Fault (Word_list_overrun (Z.to_nat HASH_TABLE_SIZE)).
Proof.
  intros Hopen Hs. destruct (read_file_inv s Hs) as (table & Hr & Hinv).
  exists table, (qsort compare_by_frequency (entries table)).
  destruct (qsort_ok (entries table)) as [Hperm Hsorted].
  split; [done|]. split; [by apply table_inv_counts|]. split; [done|].
  split; [done|]. split; [by apply Sorted_descending|].
  unfold find_frequent_words. rewrite Hopen, Hr. cbn [bind].
  rewrite collect_spec by apply Hinv.
  destruct (decide _); [|done]. cbn [bind].
  rewrite <- (Permutation_length Hperm). by rewrite gather_spec.
Qed.

Lemma entries_one_word (table : list (list WordFreqNode)) (w : list ascii) :
  counts_exactly table [w] -> entries table = [{| word := w; count := 1 |}].
Proof.
  intros (Hnd & Hnode & Hfound).
  destruct (Hfound w) as (node & Hin & Hword); [left|].
  assert (Hall : forall nd, nd ∈ entries table -> nd = {| word := w; count := 1 |}).
  { intros nd Hnd'. destruct (Hnode nd Hnd') as [Hw Hc].
    apply list_elem_of_singleton in Hw. destruct nd as [w' c'].
    cbn [word count] in Hw, Hc. subst w'. rewrite Hc. f_equal.
    unfold occurrences. rewrite filter_cons, decide_True, filter_nil by done.
    done. }
  destruct (entries table) as [|a [|b l]].
  - by apply elem_of_nil in Hin.
  - f_equal. apply Hall. left.
  - rewrite (Hall a), (Hall b) in Hnd by (left || (right; left)).
    cbn [map word] in Hnd. apply NoDup_cons in Hnd as [Hnd _].
    exfalso. apply Hnd. left.
Qed.

(** C8 (the code departs from the claim).  A file with the one word "a" and
    [n = 2]: the array returned has two cells, the second of which was never
    written, and [main], which goes through all [n] cells, uses it. *)
Theorem fewer_words_than_n_leaves_cells_unwritten :
  fopen "one.txt" = Some (text "a") ->
  find_frequent_words fopen qsort "one.txt" 2 = Ok (Some [Str (text "a"); Indeterminate]) /\
  main fopen qsort "one.txt" 2 = Fault (Indeterminate_read 1).
Proof.
  intros Hopen.
  destruct (find_frequent_words_spec "one.txt" (text "a") 2 Hopen)
    as (table & sorted & _ & Hcounts & _ & Hperm & _ & Hres); [by vm_compute|].
  change (counted_words (text "a")) with [text "a"] in Hcounts.
  apply entries_one_word in Hcounts. rewrite Hcounts in *.
  apply Permutation_singleton_r in Hperm. rewrite Hperm in Hres.
  rewrite decide_True in Hres by (by vm_compute).
  cbn in Hres. split; [done|].
  unfold main. cbn [Z.leb Z.compare]. rewrite Hres. reflexivity.
Qed.

End Result.

Lemma fewer_words_than_n_leaves_cells_unwritten_witness :
  two_files "one.txt" = Some (text "a") /\
  find_frequent_words two_files (@insertion_sort _) "one.txt" 2 =
    Ok (Some [Str (text "a"); Indeterminate]) /\
  main two_files (@insertion_sort _) "one.txt" 2 = Fault (Indeterminate_read 1).
Proof.
  assert (H1 : two_files "one.txt" = Some (text "a")) by reflexivity.
  exact (conj H1 (fewer_words_than_n_leaves_cells_unwritten
                    two_files (@insertion_sort _) insertion_sort_contract H1)).
Defined.

End WordsFacts.

(** * More on rain_probability.c *)

Module RainMore.
Import Rain Simulation RainFacts.

Section AnyArithmetic.
Context {F : Type} `{Arith F}.

(** ** The Monte Carlo check *)

Variable rand : nat -> Z.
Variable uniform : Z -> F.
Variable leb : F -> F -> bool.
Variable ratio : Z -> Z -> F.

Lemma load_p_nth (p : list F) (i : nat) :
  i < length p -> load_p p i = Ok (nth i p zero).
Proof.
  intros Hi. destruct (lookup_lt_is_Some_2 p i Hi) as [x Hx].
  by rewrite (nth_lookup_Some _ _ zero _ Hx), (load_p_Some _ _ _ Hx).
Qed.

Lemma simulate_days (p : list F) (calls m : nat) (rainy_days : Z) :
  m <= length p ->
  for_loop (seq 0 m) (simulate_day rand uniform leb p) (rainy_days, calls) =
  Ok ((rainy_days +
       Z.of_nat (length (List.filter (rainy_day rand uniform leb p calls) (seq 0 m))))%Z,
      calls + m).
Proof.
  induction m as [|m IH]; intros Hm.
  - cbn [seq for_loop List.filter length]. do 2 f_equal; lia.
  - rewrite seq_S, for_loop_app, IH by lia. cbn [bind for_loop Nat.add].
    unfold simulate_day at 1. rewrite load_p_nth by lia. cbn [bind fst snd].
    rewrite List.filter_app, length_app. cbn [List.filter].
    change (rainy_day rand uniform leb p calls m)
      with (leb (uniform (rand (calls + m))) (nth m p zero)).
    destruct (leb _ _); cbn [length]; f_equal; f_equal; lia.
Qed.

(** X4.  On an array of 365 probabilities [simulate_year] stays inside the
    array: it reads [p[0]] to [p[364]], makes 365 calls of [rand()], and
    returns the number of days whose draw is at most the probability of the
    day, a number between 0 and 365. *)
Theorem simulate_year_in_bounds (p : list F) (calls : nat) :
  length p = DAYSPERYEAR ->
  exists rainy_days,
    simulate_year rand uniform leb p calls = Ok (rainy_days, calls + DAYSPERYEAR) /\
    rainy_days =
      Z.of_nat (length (List.filter (rainy_day rand uniform leb p calls)
                                    (seq 0 DAYSPERYEAR))) /\
    (0 <= rainy_days <= Z.of_nat DAYSPERYEAR)%Z.
Proof.
  intros Hp. eexists. split; [|split; [reflexivity|]].
  - unfold simulate_year. rewrite simulate_days by lia. done.
  - pose proof (List.filter_length_le (rainy_day rand uniform leb p calls)
                  (seq 0 DAYSPERYEAR)) as Hle.
    rewrite length_seq in Hle. lia.
Qed.

Lemma simulate_year_closed (p : list F) (calls : nat) :
  length p = DAYSPERYEAR ->
  simulate_year rand uniform leb p calls =
  Ok (Z.of_nat (length (List.filter (rainy_day rand uniform leb p calls)
                                    (seq 0 DAYSPERYEAR))),
      calls + DAYSPERYEAR).
Proof. intros Hp. unfold simulate_year. by rewrite simulate_days by lia. Qed.

Lemma rainy_days_range (p : list F) (calls : nat) :
  (0 <= Z.of_nat (length (List.filter (rainy_day rand uniform leb p calls)
                                      (seq 0 DAYSPERYEAR)))
   <= Z.of_nat DAYSPERYEAR)%Z.
Proof.
  pose proof (List.filter_length_le (rainy_day rand uniform leb p calls)
                (seq 0 DAYSPERYEAR)) as Hle.
  rewrite length_seq in Hle. lia.
Qed.

(** The loop over the simulated years: it counts at most one year per pass
    and draws 365 numbers per pass. *)
Lemma simulate_years (p : list F) (n : Z) (m calls : nat) (num_years : Z) :
  length p = DAYSPERYEAR ->
  exists counted,
    for_loop (seq 0 m) (fun _ => simulate_and_count rand uniform leb p n)
      (num_years, calls) = Ok ((num_years + counted)%Z, calls + DAYSPERYEAR * m) /\
    (0 <= counted <= Z.of_nat m)%Z /\
    ((n < 0)%Z -> counted = Z.of_nat m) /\
    ((n >= Z.of_nat DAYSPERYEAR)%Z -> counted = 0%Z).
Proof.
  intros Hp. revert calls num_years.
  assert (Hconst : forall (l : list nat) (j : nat) g (st : Z * nat),
    for_loop (E:=fault) l (fun _ => g) st = for_loop (seq j (length l)) (fun _ => g) st).
  { induction l as [|i l IH]; intros j g st; cbn [length seq for_loop]; [done|].
    destruct (g st); cbn [bind]; [apply IH | done]. }
  induction m as [|m IH]; intros calls num_years.
  - exists 0%Z. cbn [seq for_loop]. split; [do 2 f_equal; lia|]. lia.
  - cbn [seq for_loop]. unfold simulate_and_count at 1. cbn [fst snd].
    rewrite simulate_year_closed by done. cbn [bind fst snd].
    pose proof (rainy_days_range p calls) as Hr.
    set (rainy := Z.of_nat (length (List.filter _ _))) in *.
    rewrite (Hconst (seq 1 m) 0), length_seq.
    destruct (IH (calls + DAYSPERYEAR)
                (if (rainy >? n)%Z then (num_years + 1)%Z else num_years))
      as (counted & -> & Hc & Hneg & Hbig).
    exists ((if (rainy >? n)%Z then 1 else 0) + counted)%Z.
    split; [|split; [|split]].
    + destruct (rainy >? n)%Z; do 2 f_equal; lia.
    + destruct (rainy >? n)%Z; lia.
    + intros Hn. rewrite Hneg by done.
      destruct (Z.gtb_spec rainy n); lia.
    + intros Hn. rewrite Hbig by done.
      destruct (Z.gtb_spec rainy n); lia.
Qed.

(** X5.  The Monte Carlo estimate, on an array of 365 probabilities: it is
    the ratio of a number of years between 0 and [num_simulations] to
    [num_simulations], after 365 draws per simulated year.  For a threshold
    below 0 every simulated year counts, so the estimate is
    [num_simulations / num_simulations], where [prob_rain_more_than_n]
    returns 0.0; for a threshold of 365 or more no year counts. *)
Theorem monte_carlo_counts_years (p : list F) (n num_simulations : Z) (calls : nat) :
  length p = DAYSPERYEAR ->
  exists num_years,
    monte_carlo_prob_rain_more_than_n rand uniform leb ratio p n num_simulations calls =
      Ok (ratio num_years num_simulations,
          calls + DAYSPERYEAR * Z.to_nat num_simulations) /\
    (0 <= num_years <= Z.max 0 num_simulations)%Z /\
    ((n < 0)%Z -> num_years = Z.max 0 num_simulations /\
                  prob_rain_more_than_n p n = Ok zero) /\
    ((n >= Z.of_nat DAYSPERYEAR)%Z -> num_years = 0%Z).
Proof.
  intros Hp.
  destruct (simulate_years p n (Z.to_nat num_simulations) calls 0 Hp)
    as (counted & Hloop & Hc & Hneg & Hbig).
  exists counted. unfold monte_carlo_prob_rain_more_than_n.
  rewrite Hloop. cbn [bind fst snd Z.add]. split; [done|].
  split; [lia|]. split.
  - intros Hn. split; [rewrite Hneg by done; lia|].
    unfold prob_rain_more_than_n. by destruct (Z.ltb_spec n 0); [|lia].
  - done.
Qed.

(** ** [prob_mass_func] and the contents of [pmf] *)

(** One pass over two arrays that agree below index [i]: the same fault, or
    two arrays that agree up to index [i]. *)
Lemma fold_day_agree (p A B : list F) (i : nat) :
  length A = length B -> 1 <= i < length A ->
  (forall j, j < i -> A !! j = B !! j) ->
  match fold_day p i A, fold_day p i B with
  | Ok A', Ok B' =>
      length A' = length A /\ length B' = length A /\
      forall j, j < S i -> A' !! j = B' !! j
  | Fault e, Fault e' => e = e'
  | _, _ => False
  end.
Proof.
  intros Hlen Hi Hagree. destruct (p !! i) as [q|] eqn:Hq.
  - rewrite !(fold_day_closed p i q) by (done || lia).
    rewrite !length_day_update. split; [done|]. split; [done|].
    intros j Hj. unfold day_update. rewrite !list_lookup_imap.
    assert (Hnth : forall k, k < i -> nth k A zero = nth k B zero).
    { intros k Hk. by rewrite !nth_lookup, Hagree. }
    destruct (decide (j = i)) as [->|Hne].
    + destruct (lookup_lt_is_Some_2 A i) as [a ->]; [lia|].
      destruct (lookup_lt_is_Some_2 B i) as [b ->]; [lia|].
      cbn [fmap option_fmap option_map]. f_equal.
      destruct (Nat.eqb_spec i 0); [lia|].
      destruct (Nat.ltb_spec i i); [lia|].
      destruct (Nat.eqb_spec i i); [|lia].
      by rewrite Hnth by lia.
    + rewrite <- Hagree by lia.
      destruct (A !! j) as [a|]; [|done].
      cbn [fmap option_fmap option_map]. f_equal.
      destruct (Nat.eqb_spec j 0); [done|].
      destruct (Nat.ltb_spec j i); [|lia].
      by rewrite Hnth by lia.
  - apply lookup_ge_None in Hq. by rewrite !fold_day_fault.
Qed.

Lemma days_loop_agree (p : list F) (m i : nat) (A B : list F) :
  length A = length B -> 1 <= i -> i + m <= length A ->
  (forall j, j < i -> A !! j = B !! j) ->
  match for_loop (seq i m) (fold_day p) A, for_loop (seq i m) (fold_day p) B with
  | Ok A', Ok B' =>
      length A' = length A /\ length B' = length A /\
      forall j, j < i + m -> A' !! j = B' !! j
  | Fault e, Fault e' => e = e'
  | _, _ => False
  end.
Proof.
  revert i A B. induction m as [|m IH]; intros i A B Hlen Hi Him Hagree.
  - cbn [seq for_loop]. split; [done|]. split; [done|].
    intros j Hj. apply Hagree. lia.
  - cbn [seq for_loop].
    pose proof (fold_day_agree p A B i Hlen ltac:(lia) Hagree) as Hstep.
    destruct (fold_day p i A) as [A'|e], (fold_day p i B) as [B'|e'];
      cbn [bind]; try done.
    destruct Hstep as (HA & HB & Hagree').
    pose proof (IH (S i) A' B' ltac:(lia) ltac:(lia) ltac:(lia) Hagree') as Hrest.
    destruct (for_loop (seq (S i) m) (fold_day p) A') as [A''|],
      (for_loop (seq (S i) m) (fold_day p) B') as [B''|]; try done.
    destruct Hrest as (HA' & HB' & Hagree'').
    split; [lia|]. split; [lia|]. intros j Hj. apply Hagree''. lia.
Qed.

(** What [prob_mass_func] does is the same for all contents of the array it
    is given. *)
Lemma prob_mass_func_any_pmf (p A B : list F) :
  length A = DAYSPERYEAR + 1 -> length B = DAYSPERYEAR + 1 ->
  prob_mass_func p A = prob_mass_func p B.
Proof.
  intros HA HB. unfold prob_mass_func.
  rewrite !store_lt by (rewrite ?HA, ?HB; unfold DAYSPERYEAR; lia). cbn [bind].
  pose proof (days_loop_agree p DAYSPERYEAR 1 (<[0:=one]> A) (<[0:=one]> B)) as Hl.
  rewrite !length_insert in Hl.
  specialize (Hl ltac:(lia) ltac:(lia) ltac:(lia)).
  destruct (for_loop _ _ (<[0:=one]> A)) as [A'|e],
    (for_loop _ _ (<[0:=one]> B)) as [B'|e'].
  - destruct Hl as (HA' & HB' & Hagree).
    + intros [|j] Hj; [|lia].
      rewrite !list_lookup_insert_eq by (rewrite ?HA, ?HB; unfold DAYSPERYEAR; lia).
      done.
    + f_equal. apply list_eq. intros j.
      destruct (decide (j < 1 + DAYSPERYEAR)) as [Hj|Hj]; [by apply Hagree|].
      rewrite !lookup_ge_None_2; [done | lia | lia].
  - exfalso. apply Hl. intros [|j] Hj; [|lia].
    by rewrite !list_lookup_insert_eq by (rewrite ?HA, ?HB; unfold DAYSPERYEAR; lia).
  - exfalso. apply Hl. intros [|j] Hj; [|lia].
    by rewrite !list_lookup_insert_eq by (rewrite ?HA, ?HB; unfold DAYSPERYEAR; lia).
  - f_equal. apply Hl. intros [|j] Hj; [|lia].
    by rewrite !list_lookup_insert_eq by (rewrite ?HA, ?HB; unfold DAYSPERYEAR; lia).
Qed.

(** X3.  [prob_mass_func] never reads a cell of [pmf] before it has written
    it: for every array of probabilities, two arrays of 366 cells with
    whatever contents give the same result, or the same fault. *)
Theorem prob_mass_func_ignores_old_pmf (p A B : list F) :
  length A = DAYSPERYEAR + 1 -> length B = DAYSPERYEAR + 1 ->
  prob_mass_func p A = prob_mass_func p B.
Proof. apply prob_mass_func_any_pmf. Qed.

(** ** The program *)

Lemma assign_days (p : list F) (k calls : nat) :
  k <= length p ->
  for_loop (seq 0 k) (assign_day rand uniform) (p, calls) =
  Ok (map (fun i => uniform (rand (calls + i))) (seq 0 k) ++ drop k p, calls + k).
Proof.
  induction k as [|k IH]; intros Hk.
  - cbn [seq for_loop map app]. by rewrite drop_0, Nat.add_0_r.
  - rewrite seq_S, for_loop_app, IH by lia. cbn [bind for_loop Nat.add].
    unfold assign_day. cbn [fst snd].
    rewrite decide_True
      by (rewrite length_app, length_map, length_seq, length_drop; lia).
    cbn [bind]. f_equal. f_equal; [|lia].
    destruct (lookup_lt_is_Some_2 p k) as [x Hx]; [lia|].
    rewrite (drop_S _ _ _ Hx), map_app. cbn [map].
    rewrite insert_app_r_alt by (rewrite length_map, length_seq; lia).
    rewrite length_map, length_seq, Nat.sub_diag. cbn [insert list_insert].
    by rewrite <- app_assoc.
Qed.

(** X7.  The program as it is written: [main] fills the 365 cells of [p]
    with one draw each, whatever they held before, and the call of
    [prob_rain_more_than_n] with [n = 188] then reads [p[365]], one cell past
    the end of the array; the bounds-checked run ends there, before the
    simulation. *)
Theorem main_reads_past_p (p : list F) :
  length p = DAYSPERYEAR ->
  for_loop (seq 0 DAYSPERYEAR) (assign_day rand uniform) (p, 0) =
    Ok (map (fun i => uniform (rand i)) (seq 0 DAYSPERYEAR), DAYSPERYEAR) /\
  main rand uniform leb ratio p = Fault (P_out_of_bounds DAYSPERYEAR).
Proof.
  intros Hp.
  assert (Hfill : for_loop (seq 0 DAYSPERYEAR) (assign_day rand uniform) (p, 0) =
                  Ok (map (fun i => uniform (rand i)) (seq 0 DAYSPERYEAR), DAYSPERYEAR)).
  { rewrite assign_days by lia. rewrite drop_ge, app_nil_r by lia. done. }
  split; [done|].
  unfold main. rewrite Hfill. cbn [bind fst snd].
  rewrite prob_rain_in_range by (unfold DAYSPERYEAR; lia).
  rewrite days_loop_365 by (by rewrite length_map, length_seq).
  done.
Qed.

End AnyArithmetic.

(** ** Exact arithmetic *)

Section ExactArithmetic.
Context {F : Type} `{Arith F} (opp : F -> F).
Context (Rth : ring_theory zero one add mul sub opp eq).
Add Ring Fring' : Rth.

(** X1.  In exact arithmetic, when 366 cells of [p] are readable,
    [prob_mass_func] fills cell [k] of [pmf], for every [k] from 0 to 365,
    with the probability of exactly [k] successes among the 365 trials
    [p[1]] to [p[365]], whatever the array held before. *)
Theorem prob_mass_func_exact (p pmf : list F) :
  DAYSPERYEAR < length p -> length pmf = DAYSPERYEAR + 1 ->
  prob_mass_func p pmf =
  Ok (map (pmf_exact (take DAYSPERYEAR (drop 1 p))) (seq 0 (DAYSPERYEAR + 1))).
Proof.
  intros Hp Hpmf.
  rewrite (prob_mass_func_any_pmf p pmf (replicate (DAYSPERYEAR + 1) zero))
    by (done || apply length_replicate).
  rewrite prob_mass_func_start, days_loop_366 by done. f_equal.
  apply (fold_days_pmf_exact opp Rth). rewrite length_take. lia.
Qed.

(** Days that are certain or impossible: the number of rainy days is known. *)
Lemma prob_event_certain (bs : list bool) (E : nat -> bool) :
  prob_event (map certain bs) E = if E (successes bs) then one else zero.
Proof.
  revert E. induction bs as [|b bs IH]; intros E.
  - unfold prob_event. cbn. destruct (E 0); cbn; ring.
  - cbn [map]. rewrite (prob_event_cons opp Rth), !IH. cbn [successes].
    destruct b; cbn [certain Nat.add]; destruct (E _), (E _); ring.
Qed.

(** X2.  In exact arithmetic, when each of the days 1 to 365 is certain to
    be rainy (probability 1) or certain to be dry (probability 0), the
    function returns 1 if more than [n] of them are rainy and 0 otherwise;
    what [p[0]] holds plays no part. *)
Theorem prob_rain_certain_days (x0 : F) (bs : list bool) (n : Z) :
  length bs = DAYSPERYEAR -> (0 <= n < Z.of_nat DAYSPERYEAR)%Z ->
  prob_rain_more_than_n (x0 :: map certain bs) n =
  Ok (if Z.to_nat n <? successes bs then one else zero).
Proof.
  intros Hbs Hn.
  assert (Hlen : DAYSPERYEAR < length (x0 :: map certain bs)).
  { cbn [length]. rewrite length_map. lia. }
  rewrite (prob_rain_of_days_1_to_365 opp Rth _ _ Hlen Hn).
  change (drop 1 (x0 :: map certain bs)) with (map (certain (F:=F)) bs).
  rewrite take_ge by (rewrite length_map; lia).
  unfold tail_exact. by rewrite prob_event_certain.
Qed.

End ExactArithmetic.

(** ** Probabilities between 0 and 1, in the rationals *)

Lemma Qc_mul_mono (q a b : Qc) : (0 <= q -> a <= b -> q * a <= q * b)%Qc.
Proof.
  intros Hq Hab. rewrite (Qcmult_comm q a), (Qcmult_comm q b).
  by apply Qcmult_le_compat_r.
Qed.

Lemma Qc_convex_mono (q a a' b b' : Qc) :
  (0 <= q -> q <= 1 -> a <= a' -> b <= b' ->
   q * a + (1 - q) * b <= q * a' + (1 - q) * b')%Qc.
Proof.
  intros Hq Hq1 Ha Hb. apply Qcplus_le_compat.
  - by apply Qc_mul_mono.
  - apply Qc_mul_mono; [|done]. unfold Qcminus.
    by apply (proj1 (Qcle_minus_iff q 1)).
Qed.

Lemma prob_event_Qc_cons (q : Qc) (ps : list Qc) (E : nat -> bool) :
  prob_event (q :: ps) E =
  (q * prob_event ps (fun s => E (S s)) + (1 - q) * prob_event ps E)%Qc.
Proof. apply (prob_event_cons Qcopp Qc_ring). Qed.

Lemma prob_event_Qc_nil (E : nat -> bool) :
  prob_event ([] : list Qc) E = if E 0 then 1%Qc else 0%Qc.
Proof.
  unfold prob_event. cbn [length outcomes List.filter successes].
  destruct (E 0); cbn [map sum_list foldr outcome_prob]; [|done].
  apply Qcplus_0_r.
Qed.

(** A larger event has a larger probability. *)
Lemma prob_event_mono (ps : list Qc) (E E' : nat -> bool) :
  Forall (fun x => 0 <= x /\ x <= 1)%Qc ps ->
  (forall s, E s = true -> E' s = true) ->
  (prob_event ps E <= prob_event ps E')%Qc.
Proof.
  intros Hps. revert E E'. induction Hps as [|q ps [Hq0 Hq1] _ IH]; intros E E' HE.
  - rewrite !prob_event_Qc_nil. specialize (HE 0).
    destruct (E 0), (E' 0); try apply Qcle_refl.
    + by specialize (HE eq_refl).
    + intros Hc. discriminate Hc.
  - rewrite !prob_event_Qc_cons. apply Qc_convex_mono; try done.
    + apply IH. intros s. apply HE.
    + by apply IH.
Qed.

Lemma prob_event_unit (ps : list Qc) (E : nat -> bool) :
  Forall (fun x => 0 <= x /\ x <= 1)%Qc ps ->
  (0 <= prob_event ps E /\ prob_event ps E <= 1)%Qc.
Proof.
  intros Hps. split.
  - pose proof (prob_event_mono ps (fun _ => false) E Hps) as Hle.
    rewrite (prob_event_never Qcopp Qc_ring ps) in Hle. by apply Hle.
  - pose proof (prob_event_mono ps E (fun _ => true) Hps) as Hle.
    rewrite (prob_event_always Qcopp Qc_ring ps) in Hle. by apply Hle.
Qed.

(** X6.  In exact arithmetic, when 366 cells of [p] are readable and the
    probabilities [p[1]] to [p[365]] lie between 0 and 1, the results for the
    thresholds in range lie between 0 and 1 and do not increase with the
    threshold. *)
Theorem prob_rain_between_0_and_1 (p : list Qc) (n m : Z) :
  DAYSPERYEAR < length p ->
  Forall (fun x => 0 <= x /\ x <= 1)%Qc (take DAYSPERYEAR (drop 1 p)) ->
  (0 <= n)%Z -> (n <= m)%Z -> (m < Z.of_nat DAYSPERYEAR)%Z ->
  exists rn rm,
    prob_rain_more_than_n p n = Ok rn /\ prob_rain_more_than_n p m = Ok rm /\
    (0 <= rm /\ rm <= rn /\ rn <= 1)%Qc.
Proof.
  intros Hp Hunit Hn Hnm Hm.
  exists (tail_exact (take DAYSPERYEAR (drop 1 p)) (Z.to_nat n)),
         (tail_exact (take DAYSPERYEAR (drop 1 p)) (Z.to_nat m)).
  split; [apply (prob_rain_of_days_1_to_365 Qcopp Qc_ring); [done|lia]|].
  split; [apply (prob_rain_of_days_1_to_365 Qcopp Qc_ring); [done|lia]|].
  unfold tail_exact. split; [by apply prob_event_unit|].
  split; [|by apply prob_event_unit].
  apply prob_event_mono; [done|]. intros s Hs.
  apply Nat.ltb_lt in Hs. apply Nat.ltb_lt. lia.
Qed.

(** ** The statements above, on examples *)

Lemma simulate_year_in_bounds_witness :
  length every_day_half = DAYSPERYEAR /\
  exists rainy_days,
    simulate_year rand_mod_11 uniform_10 Qc_leb every_day_half 0 =
      Ok (rainy_days, 0 + DAYSPERYEAR) /\
    rainy_days =
      Z.of_nat (length (List.filter
                          (rainy_day rand_mod_11 uniform_10 Qc_leb every_day_half 0)
                          (seq 0 DAYSPERYEAR))) /\
    (0 <= rainy_days <= Z.of_nat DAYSPERYEAR)%Z.
Proof.
  assert (H1 : length every_day_half = DAYSPERYEAR) by reflexivity.
  exact (conj H1 (simulate_year_in_bounds rand_mod_11 uniform_10 Qc_leb
                    every_day_half 0 H1)).
Defined.

Lemma main_reads_past_p_witness :
  length every_day_half = DAYSPERYEAR /\
  main rand_mod_11 uniform_10 Qc_leb Qc_ratio every_day_half =
    Fault (P_out_of_bounds DAYSPERYEAR).
Proof.
  assert (H1 : length every_day_half = DAYSPERYEAR) by reflexivity.
  exact (conj H1 (proj2 (main_reads_past_p rand_mod_11 uniform_10 Qc_leb Qc_ratio
                           every_day_half H1))).
Defined.

Lemma monte_carlo_counts_years_witness :
  length every_day_half = DAYSPERYEAR /\
  exists num_years,
    monte_carlo_prob_rain_more_than_n rand_mod_11 uniform_10 Qc_leb Qc_ratio
      every_day_half (-1) 5 0 =
      Ok (Qc_ratio num_years 5, 0 + DAYSPERYEAR * Z.to_nat 5) /\
    (0 <= num_years <= Z.max 0 5)%Z /\
    ((-1 < 0)%Z -> num_years = Z.max 0 5 /\
                   prob_rain_more_than_n every_day_half (-1) = Ok zero) /\
    ((-1 >= Z.of_nat DAYSPERYEAR)%Z -> num_years = 0%Z).
Proof.
  assert (H1 : length every_day_half = DAYSPERYEAR) by reflexivity.
  exact (conj H1 (monte_carlo_counts_years rand_mod_11 uniform_10 Qc_leb Qc_ratio
                    every_day_half (-1) 5 0 H1)).
Defined.

Lemma prob_mass_func_ignores_old_pmf_witness :
  length (replicate 366 (1%Qc)) = DAYSPERYEAR + 1 /\
  length (replicate 366 (0%Qc)) = DAYSPERYEAR + 1 /\
  prob_mass_func half_366 (replicate 366 (1%Qc)) =
  prob_mass_func half_366 (replicate 366 (0%Qc)).
Proof.
  assert (H1 : length (replicate 366 (1%Qc)) = DAYSPERYEAR + 1) by reflexivity.
  assert (H2 : length (replicate 366 (0%Qc)) = DAYSPERYEAR + 1) by reflexivity.
  exact (conj H1 (conj H2 (prob_mass_func_ignores_old_pmf half_366 _ _ H1 H2))).
Defined.

Lemma prob_mass_func_exact_witness :
  DAYSPERYEAR < length half_366 /\
  length (replicate 366 (1%Qc)) = DAYSPERYEAR + 1 /\
  prob_mass_func half_366 (replicate 366 (1%Qc)) =
  Ok (map (pmf_exact (take DAYSPERYEAR (drop 1 half_366))) (seq 0 (DAYSPERYEAR + 1))).
Proof.
  assert (H1 : DAYSPERYEAR < length half_366).
  { unfold half_366. rewrite length_replicate. unfold DAYSPERYEAR. lia. }
  assert (H2 : length (replicate 366 (1%Qc)) = DAYSPERYEAR + 1) by reflexivity.
  exact (conj H1 (conj H2 (prob_mass_func_exact Qcopp Qc_ring half_366 _ H1 H2))).
Defined.

Lemma prob_rain_certain_days_witness :
  length (replicate 364 true ++ [false]) = DAYSPERYEAR /\
  (0 <= 363 < Z.of_nat DAYSPERYEAR)%Z /\
  prob_rain_more_than_n (1%Qc :: map certain (replicate 364 true ++ [false])) 363 =
  Ok (if Z.to_nat 363 <? successes (replicate 364 true ++ [false]) then one else zero).
Proof.
  assert (H1 : length (replicate 364 true ++ [false]) = DAYSPERYEAR) by reflexivity.
  assert (H2 : (0 <= 363 < Z.of_nat DAYSPERYEAR)%Z) by (unfold DAYSPERYEAR; lia).
  exact (conj H1 (conj H2 (prob_rain_certain_days Qcopp Qc_ring 1%Qc _ 363 H1 H2))).
Defined.

Lemma prob_rain_between_0_and_1_witness :
  DAYSPERYEAR < length half_366 /\
  Forall (fun x => 0 <= x /\ x <= 1)%Qc (take DAYSPERYEAR (drop 1 half_366)) /\
  (0 <= 100)%Z /\ (100 <= 200)%Z /\ (200 < Z.of_nat DAYSPERYEAR)%Z /\
  exists rn rm,
    prob_rain_more_than_n half_366 100 = Ok rn /\
    prob_rain_more_than_n half_366 200 = Ok rm /\
    (0 <= rm /\ rm <= rn /\ rn <= 1)%Qc.
Proof.
  assert (H1 : DAYSPERYEAR < length half_366).
  { unfold half_366. rewrite length_replicate. unfold DAYSPERYEAR. lia. }
  assert (H2 : Forall (fun x => 0 <= x /\ x <= 1)%Qc (take DAYSPERYEAR (drop 1 half_366))).
  { apply Forall_forall. intros x Hx.
    apply (subseteq_take DAYSPERYEAR) in Hx. apply (subseteq_drop 1) in Hx.
    apply elem_of_replicate in Hx as [-> _].
    split; intros Hc; discriminate Hc. }
  assert (H3 : (0 <= 100)%Z) by lia.
  assert (H4 : (100 <= 200)%Z) by lia.
  assert (H5 : (200 < Z.of_nat DAYSPERYEAR)%Z) by (unfold DAYSPERYEAR; lia).
  exact (conj H1 (conj H2 (conj H3 (conj H4 (conj H5
           (prob_rain_between_0_and_1 half_366 100 200 H1 H2 H3 H4 H5)))))).
Defined.

End RainMore.

(** * More on most_freq_words.c *)

Module WordsMoreFacts.
Import Words WordsMore WordsFacts.

(** ** The hash function *)




(** ** [add_word] on any table *)

Lemma add_word_safe (table : list (list WordFreqNode)) (w : list ascii) :
  length table = Z.to_nat HASH_TABLE_SIZE ->
  (exists table', add_word table w = Ok table' /\
                  length table' = Z.to_nat HASH_TABLE_SIZE) \/
  add_word table w = Fault Signed_overflow.
Proof.
  intros Hl. unfold add_word.
  destruct (lookup_lt_is_Some_2 table (Z.to_nat (djb2_hash w))) as [chain ->].
  { pose proof (djb2_hash_range w). lia. }
  pose proof (count_up_spec w chain) as Hspec.
  destruct (count_up w chain) as [r|].
  - destruct Hspec as (before & node & after & _ & _ & _ & ->).
    destruct (count node <? INT_MAX)%Z; cbn [bind]; [|by right].
    left. eexists. split; [done|]. by rewrite length_insert.
  - left. eexists. split; [done|]. by rewrite length_insert.
Qed.

Lemma add_words_safe (ws : list (list ascii)) (table : list (list WordFreqNode)) :
  length table = Z.to_nat HASH_TABLE_SIZE ->
  (exists table', add_words ws table = Ok table' /\
                  length table' = Z.to_nat HASH_TABLE_SIZE) \/
  add_words ws table = Fault Signed_overflow.
Proof.
  revert table. induction ws as [|w ws IH]; intros table Hl; cbn [add_words].
  - left. by exists table.
  - destruct (add_word_safe table w Hl) as [(table' & -> & Hl')| ->]; cbn [bind].
    + by apply IH.
    + by right.
Qed.

(** X9.  On any table of 10000 chains, [add_word] stays inside the table: it
    returns a table of 10000 chains, or stops at the increment of a count
    that has reached [INT_MAX]; and it stops there exactly when the first
    node for the word in the chain of its hash holds [INT_MAX] or more. *)
Theorem add_word_stays_in_table (table : list (list WordFreqNode)) (w : list ascii) :
  length table = Z.to_nat HASH_TABLE_SIZE ->
  ((exists table', add_word table w = Ok table' /\
                   length table' = Z.to_nat HASH_TABLE_SIZE) \/
   add_word table w = Fault Signed_overflow) /\
  (add_word table w = Fault Signed_overflow <->
   exists chain i node,
     table !! Z.to_nat (djb2_hash w) = Some chain /\
     list_find (fun node => word node = w) chain = Some (i, node) /\
     (INT_MAX <= count node)%Z).
Proof.
  intros Hl. split; [by apply add_word_safe|].
  unfold add_word.
  destruct (lookup_lt_is_Some_2 table (Z.to_nat (djb2_hash w))) as [chain Hc].
  { pose proof (djb2_hash_range w). lia. }
  rewrite Hc. pose proof (count_up_spec w chain) as Hspec.
  destruct (count_up w chain) as [r|].
  - destruct Hspec as (before & node & after & -> & Hw & Hb & ->).
    assert (Hfind : list_find (fun node => word node = w) (before ++ node :: after)
                    = Some (length before, node)).
    { apply list_find_Some. split; [|split; [done|]].
      - by rewrite lookup_app_r, Nat.sub_diag by lia.
      - intros j y Hj Hlt. rewrite lookup_app_l in Hj by done.
        apply Hb. by eapply list_elem_of_lookup_2. }
    destruct (Z.ltb_spec (count node) INT_MAX); cbn [bind]; split.
    + done.
    + intros (c & i & nd & [= <-] & Hf & Hge). rewrite Hfind in Hf.
      injection Hf as _ <-. lia.
    + intros _. by exists (before ++ node :: after), (length before), node.
    + done.
  - split; [done|]. intros (c & i & nd & [= <-] & Hf & _).
    apply list_find_Some in Hf as (Hi & Hword & _).
    exfalso. apply (Hspec nd); [|done]. by eapply list_elem_of_lookup_2.
Qed.

(** ** Reading a file *)

Lemma add_words_fault (ws : list (list ascii)) (e : fault) :
  add_words ws (replicate (Z.to_nat HASH_TABLE_SIZE) []) = Fault e ->
  e = Signed_overflow.
Proof.
  intros He.
  destruct (add_words_safe ws (replicate (Z.to_nat HASH_TABLE_SIZE) []))
    as [(table' & Hok & _)|Hf].
  - apply length_replicate.
  - congruence.
  - congruence.
Qed.

(** X10.  Reading never leaves the word buffer: whatever the file holds and
    whatever the 150 cells of [word_buffer] held on entry, the result is the
    same, and the only point at which reading can stop is the increment of
    a count at [INT_MAX]; no write outside [word_buffer], no string without
    its NUL, no index outside the table. *)
Theorem read_file_stays_in_buffer (junk s : list ascii) :
  length junk = WORD_BUFFER_SIZE ->
  read_file_from junk s = read_file s /\
  forall e, read_file_from junk s = Fault e -> e = Signed_overflow.
Proof.
  intros Hj. rewrite read_file_counted, read_file_from_counted by done.
  split; [done|]. intros e. apply add_words_fault.
Qed.

(** ** Counting one more word *)

Lemma add_words_reaches_inv (toks : list (list ascii))
  (table : list (list WordFreqNode)) :
  add_words toks (replicate (Z.to_nat HASH_TABLE_SIZE) []) = Ok table ->
  (Z.of_nat (length toks) <= INT_MAX)%Z ->
  table_inv table toks.
Proof.
  intros Hadd Hlen.
  destruct (add_words_inv toks _ [] table_inv_empty) as (table0 & Hadd0 & Hinv).
  { cbn [length]. lia. }
  rewrite Hadd in Hadd0. by injection Hadd0 as ->.
Qed.

(** X11.  Insert and look up.  On the table that holds the counts of the
    words [toks] (fewer than [INT_MAX] of them), [add_word] succeeds, the
    count of the word added is one more than before, the counts of all other
    words are as before, and the table holds the counts of [toks] and the
    word added. *)
Theorem add_word_counts_one_more (toks : list (list ascii))
  (table : list (list WordFreqNode)) (w : list ascii) :
  add_words toks (replicate (Z.to_nat HASH_TABLE_SIZE) []) = Ok table ->
  (Z.of_nat (length toks) < INT_MAX)%Z ->
  exists table',
    add_word table w = Ok table' /\
    count_of table' w = (count_of table w + 1)%Z /\
    (forall w', w' <> w -> count_of table' w' = count_of table w') /\
    counts_exactly table' (toks ++ [w]).
Proof.
  intros Hadd Hlen.
  pose proof (add_words_reaches_inv toks table Hadd ltac:(lia)) as Hinv.
  destruct (add_word_inv table toks w Hinv Hlen) as (table' & Hadd' & Hinv').
  apply table_inv_counts in Hinv, Hinv'.
  exists table'. split; [done|]. split; [|split; [|done]].
  - rewrite (counts_exactly_count_of _ _ _ Hinv), (counts_exactly_count_of _ _ _ Hinv').
    rewrite occurrences_snoc, decide_True by done. lia.
  - intros w' Hw'.
    rewrite (counts_exactly_count_of _ _ _ Hinv), (counts_exactly_count_of _ _ _ Hinv').
    rewrite occurrences_snoc, decide_False by done. lia.
Qed.

(** ** The words in the table *)

Lemma fold_case_letter (c : ascii) :
  is_letter c = true -> fold_case c ∈ lowercase_letters.
Proof.
  intros Hc. apply (bool_decide_unpack _). revert Hc.
  destruct c as [[] [] [] [] [] [] [] []]; vm_compute; intros Hc;
    (exact I || discriminate Hc).
Qed.

Lemma lowercase_letter (c : ascii) :
  c ∈ lowercase_letters -> is_letter c = true /\ fold_case c = c /\ tolower c = c.
Proof.
  intros Hc. apply (bool_decide_pack _) in Hc. revert Hc.
  destruct c as [[] [] [] [] [] [] [] []]; vm_compute; intros Hc;
    (by repeat split) || (by destruct Hc).
Qed.

(** The shape of a token of the specification. *)
Lemma scan_shape (cur s : list ascii) :
  (cur = [] \/
   exists c w, cur = c :: w /\ c ∈ lowercase_letters /\
               Forall (fun c => c ∈ lowercase_letters \/ c = apostrophe) w) ->
  Forall (fun t => exists c w, t = c :: w /\ c ∈ lowercase_letters /\
                     Forall (fun c => c ∈ lowercase_letters \/ c = apostrophe) w)
         (scan cur s).
Proof.
  revert cur. induction s as [|a s IH]; intros cur Hcur; cbn [scan].
  - destruct Hcur as [->|(c & w & -> & Hc & Hw)]; cbn [emit]; [constructor|].
    constructor; [|constructor]. by exists c, w.
  - destruct (contributes cur a) eqn:Ha.
    + apply IH. right. unfold contributes in Ha.
      destruct Hcur as [->|(c & w & -> & Hc & Hw)].
      * rewrite (bool_decide_eq_false_2 ([] <> [])) in Ha by (intros Hn; by apply Hn).
        rewrite andb_false_r, orb_false_r in Ha.
        exists (fold_case a), []. split; [done|]. split; [by apply fold_case_letter|].
        constructor.
      * exists c, (w ++ [fold_case a]). split; [done|]. split; [done|].
        apply Forall_app. split; [done|]. constructor; [|constructor].
        apply orb_true_iff in Ha as [Ha|Ha].
        -- left. by apply fold_case_letter.
        -- apply andb_true_iff in Ha as [Ha _]. apply bool_decide_eq_true in Ha.
           right. by rewrite Ha.
    + apply Forall_app. split; [|apply IH; by left].
      destruct Hcur as [->|(c & w & -> & Hc & Hw)]; cbn [emit]; [constructor|].
      constructor; [|constructor]. by exists c, w.
Qed.

Lemma counted_words_stored (s : list ascii) :
  Forall stored_word (counted_words s).
Proof.
  unfold counted_words, spec_tokens. apply Forall_fmap.
  eapply Forall_impl; [apply scan_shape; by left|].
  intros t (c & w & -> & Hc & Hw). cbn [compose]. split.
  - cbn [take WORD_BUFFER_SIZE Nat.sub]. split; [done|]. by apply Forall_take.
  - rewrite length_take. lia.
Qed.

(** The nodes of the table after reading a file. *)
Lemma read_file_nodes (s : list ascii) (table : list (list WordFreqNode))
  (node : WordFreqNode) :
  (Z.of_nat (length s) <= INT_MAX)%Z -> read_file s = Ok table ->
  node ∈ entries table ->
  word node ∈ counted_words s /\
  count node = Z.of_nat (occurrences (word node) (counted_words s)) /\
  (1 <= count node <= Z.of_nat (length s))%Z.
Proof.
  intros Hs Hr Hin.
  destruct (read_file_inv s Hs) as (table0 & Hr0 & Hinv).
  rewrite Hr in Hr0. injection Hr0 as <-.
  apply table_inv_counts in Hinv. destruct Hinv as (_ & Hnode & _).
  destruct (Hnode node Hin) as [Hw Hc]. split; [done|]. split; [done|].
  rewrite Hc. pose proof (occurrences_le (word node) (counted_words s)).
  pose proof (length_counted_words s).
  assert (occurrences (word node) (counted_words s) <> 0); [|lia].
  unfold occurrences. intros Hz. apply length_zero_iff_nil in Hz.
  assert (Hf : word node ∈ filter (eq (word node)) (counted_words s)).
  { by apply list_elem_of_filter. }
  rewrite Hz in Hf. by apply elem_of_nil in Hf.
Qed.

(** X12.  After a file of at most [INT_MAX] characters is read, every node
    of the table holds a word that is not empty, starts with a lowercase
    letter, consists of lowercase letters and apostrophes and has at most
    149 characters, with a count between 1 and the number of characters of
    the file. *)
Theorem stored_words_are_well_formed (s : list ascii)
  (table : list (list WordFreqNode)) (node : WordFreqNode) :
  (Z.of_nat (length s) <= INT_MAX)%Z -> read_file s = Ok table ->
  node ∈ entries table ->
  stored_word (word node) /\ (1 <= count node <= Z.of_nat (length s))%Z.
Proof.
  intros Hs Hr Hin. destruct (read_file_nodes s table node Hs Hr Hin) as (Hw & _ & Hc).
  split; [|done].
  pose proof (counted_words_stored s) as Hall. rewrite Forall_forall in Hall.
  by apply Hall.
Qed.

(** X13.  The comparison of two nodes of the table, after a file of at most
    [INT_MAX] characters is read: the difference of the counts is an [int]
    (no overflow), it is negative exactly when the first node has the larger
    count, zero exactly when the counts are equal, and swapping the nodes
    negates it. *)
Theorem compare_by_frequency_is_sound (s : list ascii)
  (table : list (list WordFreqNode)) (a b : WordFreqNode) :
  (Z.of_nat (length s) <= INT_MAX)%Z -> read_file s = Ok table ->
  a ∈ entries table -> b ∈ entries table ->
  (- INT_MAX - 1 <= compare_by_frequency a b <= INT_MAX)%Z /\
  ((compare_by_frequency a b < 0)%Z <-> (count b < count a)%Z) /\
  (compare_by_frequency a b = 0%Z <-> count a = count b) /\
  compare_by_frequency b a = (- compare_by_frequency a b)%Z.
Proof.
  intros Hs Hr Ha Hb.
  destruct (read_file_nodes s table a Hs Hr Ha) as (_ & _ & Hca).
  destruct (read_file_nodes s table b Hs Hr Hb) as (_ & _ & Hcb).
  unfold compare_by_frequency. lia.
Qed.

(** ** Texts without letters, letter case, and texts of words *)

Lemma scan_no_letters (s : list ascii) :
  Forall (fun c => isalpha c = false) s -> scan [] s = [].
Proof.
  induction 1 as [|c s Hc _ IH]; cbn [scan]; [done|].
  unfold contributes. rewrite <- isalpha_is_letter, Hc.
  rewrite (bool_decide_eq_false_2 ([] <> [])) by (intros Hn; by apply Hn).
  by rewrite andb_false_r.
Qed.

Lemma entries_empty_table (k : nat) :
  entries (replicate k []) = [].
Proof. unfold entries. induction k as [|k IH]; cbn [replicate concat app]; done. Qed.

Lemma gather_count_0 (sorted : list WordFreqNode) (n : Z) :
  gather sorted 0 n = Ok (replicate (Z.to_nat n) Indeterminate).
Proof.
  unfold gather. generalize (replicate (Z.to_nat n) Indeterminate).
  generalize (seq 0 (Z.to_nat n)).
  induction l as [|i l IH]; intros res; cbn [for_loop]; [done|].
  cbn [Nat.ltb Nat.leb bind]. apply IH.
Qed.

(** X14.  A file without a letter (digits, punctuation, apostrophes, white
    space, or nothing at all) leaves the table without a node, and
    [find_frequent_words], called with a positive [n], returns an array of
    [n] cells none of which it has written. *)
Theorem no_letters_no_words (fopen : string -> option (list ascii))
  (qsort : (WordFreqNode -> WordFreqNode -> Z) -> list WordFreqNode -> list WordFreqNode)
  (path : string) (s : list ascii) (n : Z) :
  fopen path = Some s -> Forall (fun c => isalpha c = false) s -> (0 < n)%Z ->
  read_file s = Ok (replicate (Z.to_nat HASH_TABLE_SIZE) []) /\
  find_frequent_words fopen qsort path n =
    Ok (Some (replicate (Z.to_nat n) Indeterminate)).
Proof.
  intros Hopen Hs _.
  assert (Hr : read_file s = Ok (replicate (Z.to_nat HASH_TABLE_SIZE) [])).
  { rewrite read_file_counted. unfold counted_words, spec_tokens.
    by rewrite scan_no_letters. }
  split; [done|]. unfold find_frequent_words. rewrite Hopen, Hr. cbn [bind].
  rewrite collect_spec by apply length_replicate.
  rewrite entries_empty_table. cbn [length].
  rewrite decide_True by (by vm_compute). cbn [bind length].
  by rewrite gather_count_0.
Qed.

Lemma tolower_same_token (cur : list ascii) (c : ascii) :
  contributes cur (tolower c) = contributes cur c /\
  fold_case (tolower c) = fold_case c.
Proof.
  unfold contributes. destruct (bool_decide (cur <> [])).
  - destruct c as [[] [] [] [] [] [] [] []]; vm_compute; done.
  - destruct c as [[] [] [] [] [] [] [] []]; vm_compute; done.
Qed.

Lemma scan_tolower (cur s : list ascii) :
  scan cur (map tolower s) = scan cur s.
Proof.
  revert cur. induction s as [|c s IH]; intros cur; cbn [map scan]; [done|].
  destruct (tolower_same_token cur c) as [-> ->]. by rewrite !IH.
Qed.

(** X15.  Upper and lower case are the same to the program: two files that
    agree once every character is put through [tolower] give the same
    table, node for node, or stop at the same fault. *)
Theorem read_file_ignores_case (s s' : list ascii) :
  map tolower s = map tolower s' -> read_file s = read_file s'.
Proof.
  intros Heq. rewrite !read_file_counted. unfold counted_words, spec_tokens.
  by rewrite <- (scan_tolower [] s), <- (scan_tolower [] s'), Heq.
Qed.

Lemma stored_word_run (w : list ascii) :
  stored_word w ->
  word_run w /\ take (WORD_BUFFER_SIZE - 1) (map tolower w) = w.
Proof.
  destruct w as [|c w]; intros [Hw Hlen]; [done|]. destruct Hw as [Hc Hw].
  split.
  - split; [by apply lowercase_letter|].
    eapply Forall_impl; [exact Hw|]. intros a [Ha| ->]; [|done].
    unfold word_char. by rewrite (proj1 (lowercase_letter a Ha)).
  - rewrite take_ge by (by rewrite length_map).
    cbn [map]. f_equal; [by apply lowercase_letter|].
    induction Hw as [|a w [Ha| ->] _ IH]; cbn [map]; [done| |].
    + f_equal; [by apply lowercase_letter|]. apply IH. cbn [length] in *. lia.
    + f_equal. apply IH. cbn [length] in *. lia.
Qed.

Lemma counted_words_spaced (ws : list (list ascii)) :
  Forall stored_word ws -> counted_words (spaced ws) = ws.
Proof.
  induction 1 as [|w ws Hw _ IH]; [done|].
  unfold spaced. cbn [map concat]. fold (spaced ws).
  rewrite <- app_assoc. cbn [app].
  destruct (stored_word_run w Hw) as [Hrun Htake].
  pose proof (counted_words_run [] w (" "%char :: spaced ws) I Hrun eq_refl) as Hc.
  cbn [app] in Hc. rewrite Hc, Htake. f_equal.
  unfold counted_words, spec_tokens in *. by rewrite <- IH at 2.
Qed.

(** X16.  Round trip.  A text made of words as the program stores them, each
    followed by a space, is read back word for word: the program counts
    exactly these words, in this order. *)
Theorem spaced_words_are_read_back (ws : list (list ascii)) :
  Forall stored_word ws ->
  counted_words (spaced ws) = ws /\
  read_file (spaced ws) = add_words ws (replicate (Z.to_nat HASH_TABLE_SIZE) []).
Proof.
  intros Hws. split; [by apply counted_words_spaced|].
  by rewrite read_file_counted, counted_words_spaced.
Qed.

(** X17.  The counts do not depend on the order of the words: two files of
    at most [INT_MAX] characters whose words are the same up to their order
    are read into tables that hold the same count for every word. *)
Theorem counts_ignore_word_order (s s' : list ascii) :
  (Z.of_nat (length s) <= INT_MAX)%Z -> (Z.of_nat (length s') <= INT_MAX)%Z ->
  Permutation (counted_words s) (counted_words s') ->
  exists table table',
    read_file s = Ok table /\ read_file s' = Ok table' /\
    forall w, count_of table w = count_of table' w.
Proof.
  intros Hs Hs' Hperm.
  destruct (read_file_inv s Hs) as (table & Hr & Hinv).
  destruct (read_file_inv s' Hs') as (table' & Hr' & Hinv').
  apply table_inv_counts in Hinv, Hinv'.
  exists table, table'. split; [done|]. split; [done|]. intros w.
  rewrite (counts_exactly_count_of _ _ _ Hinv), (counts_exactly_count_of _ _ _ Hinv').
  unfold occurrences. by rewrite Hperm.
Qed.

(** ** The array returned and the lines printed *)

Lemma length_entries_distinct (table : list (list WordFreqNode))
  (toks : list (list ascii)) :
  counts_exactly table toks ->
  length (entries table) = length (remove_dups toks).
Proof.
  intros (Hnd & Hnode & Hfound).
  rewrite <- (length_map word (entries table)).
  apply Permutation_length, NoDup_Permutation; [done | apply NoDup_remove_dups |].
  intros w. rewrite elem_of_remove_dups. split.
  - intros Hw. apply list_elem_of_fmap in Hw as (node & -> & Hin).
    by apply Hnode.
  - intros Hw. destruct (Hfound w Hw) as (node & Hin & <-).
    apply list_elem_of_fmap. by exists node.
Qed.

Lemma StronglySorted_lookup {A} (R : A -> A -> Prop) (l : list A) i j a b :
  StronglySorted R l -> i < j -> l !! i = Some a -> l !! j = Some b -> R a b.
Proof.
  intros Hs. revert i j. induction Hs as [|x l Hs IH Hall]; intros i j Hij Hi Hj.
  - done.
  - destruct j as [|j]; [lia|]. destruct i as [|i].
    + injection Hi as <-. rewrite Forall_forall in Hall. apply Hall.
      by eapply list_elem_of_lookup_2.
    + apply (IH i j); [lia | done | done].
Qed.

Lemma print_words_loop (top : list (list ascii)) (rest : list slot) (j : nat) :
  j <= length top ->
  for_loop (seq 0 j)
    (fun i printed =>
       match (map Str top ++ rest) !! i with
       | Some (Str w) => Ok (printed ++ [(i + 1, w)])
       | Some Indeterminate => Fault (Indeterminate_read i)
       | None => Fault (Result_overrun i)
       end) [] = Ok (numbered (take j top)).
Proof.
  induction j as [|j IH]; intros Hj; [done|].
  rewrite seq_S, for_loop_app, IH by lia. cbn [bind for_loop Nat.add].
  destruct (lookup_lt_is_Some_2 top j) as [w Hw]; [lia|].
  rewrite lookup_app_l by (rewrite length_map; lia).
  rewrite list_lookup_fmap, Hw. cbn [fmap option_fmap option_map].
  f_equal. rewrite (take_S_r _ _ _ Hw). unfold numbered.
  rewrite imap_app. cbn [imap]. rewrite length_take.
  cbn [bind]. do 4 f_equal. lia.
Qed.

Lemma print_words_spec (top : list (list ascii)) (k : nat) (n : Z) :
  Z.to_nat n = length top + k ->
  print_words (map Str top ++ replicate k Indeterminate) n =
  match k with
  | 0 => Ok (numbered top)
  | S _ => Fault (Indeterminate_read (length top))
  end.
Proof.
  intros Hn. unfold print_words. rewrite Hn, seq_app, for_loop_app.
  rewrite print_words_loop, firstn_all by done. cbn [bind Nat.add].
  destruct k as [|k]; [done|]. cbn [seq for_loop].
  rewrite lookup_app_r, length_map, Nat.sub_diag by (rewrite length_map; lia).
  done.
Qed.

Section Result.
Variable fopen : string -> option (list ascii).
Variable qsort :
  (WordFreqNode -> WordFreqNode -> Z) -> list WordFreqNode -> list WordFreqNode.
Hypothesis qsort_ok : qsort_contract qsort.

(** The words of the sorted nodes, for a file with at most 10000 distinct
    words. *)
Lemma sorted_words (path : string) (s : list ascii) (n : Z) :
  fopen path = Some s -> (Z.of_nat (length s) <= INT_MAX)%Z ->
  (Z.of_nat (distinct_words s) <= HASH_TABLE_SIZE)%Z ->
  exists words,
    length words = distinct_words s /\
    NoDup words /\
    (forall w, w ∈ words <-> w ∈ counted_words s) /\
    (forall i j a b, i < j -> words !! i = Some a -> words !! j = Some b ->
       occurrences b (counted_words s) <= occurrences a (counted_words s)) /\
    find_frequent_words fopen qsort path n =
    Ok (Some (map Str (take (Z.to_nat n) words)
                ++ replicate (Z.to_nat n - length words) Indeterminate)).
Proof.
  intros Hopen Hs Hd.
  destruct (find_frequent_words_spec fopen qsort qsort_ok path s n Hopen Hs)
    as (table & sorted & Hr & Hcounts & _ & Hperm & Hsorted & Hres).
  pose proof (length_entries_distinct _ _ Hcounts) as Hlen.
  fold (distinct_words s) in Hlen.
  rewrite decide_True in Hres by lia.
  destruct Hcounts as (Hnd & Hnode & Hfound).
  exists (map word sorted). split; [|split; [|split; [|split]]].
  - by rewrite length_map, (Permutation_length Hperm).
  - by rewrite Hperm.
  - intros w. rewrite Hperm. split.
    + intros Hw. apply list_elem_of_fmap in Hw as (node & -> & Hin). by apply Hnode.
    + intros Hw. destruct (Hfound w Hw) as (node & Hin & <-).
      apply list_elem_of_fmap. by exists node.
  - intros i j a b Hij Ha Hb.
    rewrite list_lookup_fmap in Ha, Hb.
    destruct (sorted !! i) as [na|] eqn:Hna; [|done].
    destruct (sorted !! j) as [nb|] eqn:Hnb; [|done].
    injection Ha as <-. injection Hb as <-.
    pose proof (StronglySorted_lookup _ _ _ _ _ _ Hsorted Hij Hna Hnb) as Hdesc.
    unfold descending in Hdesc.
    assert (Hina : na ∈ entries table).
    { rewrite <- Hperm. by eapply list_elem_of_lookup_2. }
    assert (Hinb : nb ∈ entries table).
    { rewrite <- Hperm. by eapply list_elem_of_lookup_2. }
    destruct (Hnode na Hina) as [_ Hca]. destruct (Hnode nb Hinb) as [_ Hcb].
    lia.
  - rewrite Hres, length_map, <- fmap_take, map_map. done.
Qed.

(** X18.  The top [n].  For a file of at most [INT_MAX] characters with at
    least [n] and at most 10000 distinct words, [find_frequent_words] returns
    an array whose [n] cells are all written, with [n] different words of
    the file, in descending order of their numbers of occurrences, and no
    word of the file that is left out occurs more often than a word that is
    in. *)
Theorem find_frequent_words_top_n (path : string) (s : list ascii) (n : Z) :
  fopen path = Some s -> (Z.of_nat (length s) <= INT_MAX)%Z ->
  (0 < n)%Z -> (n <= Z.of_nat (distinct_words s))%Z ->
  (Z.of_nat (distinct_words s) <= HASH_TABLE_SIZE)%Z ->
  exists top,
    find_frequent_words fopen qsort path n = Ok (Some (map Str top)) /\
    Z.of_nat (length top) = n /\
    NoDup top /\
    (forall t, t ∈ top -> t ∈ counted_words s) /\
    (forall i j a b, i < j -> top !! i = Some a -> top !! j = Some b ->
       occurrences b (counted_words s) <= occurrences a (counted_words s)) /\
    (forall t w, t ∈ top -> w ∈ counted_words s -> w ∉ top ->
       occurrences w (counted_words s) <= occurrences t (counted_words s)).
Proof.
  intros Hopen Hs Hn Hnd Hd.
  destruct (sorted_words path s n Hopen Hs Hd)
    as (words & Hlen & Hnodup & Hmem & Hdesc & Hres).
  exists (take (Z.to_nat n) words).
  assert (Hsplit : words = take (Z.to_nat n) words ++ drop (Z.to_nat n) words)
    by (by rewrite take_drop).
  split; [|split; [|split; [|split; [|split]]]].
  - rewrite Hres. replace (Z.to_nat n - length words) with 0 by lia.
    by rewrite app_nil_r.
  - rewrite length_take. lia.
  - rewrite Hsplit in Hnodup. by apply NoDup_app in Hnodup as (? & _).
  - intros t Ht. apply Hmem. by apply (subseteq_take (Z.to_nat n)).
  - intros i j a b Hij Ha Hb.
    apply lookup_take_Some in Ha as [Ha _]. apply lookup_take_Some in Hb as [Hb _].
    by apply (Hdesc i j).
  - intros t w Ht Hw Hout.
    apply elem_of_take in Ht as (i & Hi & Hlt).
    apply Hmem in Hw. apply list_elem_of_lookup in Hw as [j Hj].
    destruct (decide (j < Z.to_nat n)) as [Hjn|Hjn].
    + exfalso. apply Hout. apply elem_of_take. by exists j.
    + apply (Hdesc i j); [lia | done | done].
Qed.

(** X19.  With at least [n] and at most 10000 distinct words in a file of at
    most [INT_MAX] characters, [main] ends with [EXIT_SUCCESS] after printing
    the [n] words that [find_frequent_words] returned, in their order,
    numbered from 1 to [n]. *)
Theorem main_prints_top_n (path : string) (s : list ascii) (n : Z) :
  fopen path = Some s -> (Z.of_nat (length s) <= INT_MAX)%Z ->
  (0 < n)%Z -> (n <= Z.of_nat (distinct_words s))%Z ->
  (Z.of_nat (distinct_words s) <= HASH_TABLE_SIZE)%Z ->
  exists top,
    find_frequent_words fopen qsort path n = Ok (Some (map Str top)) /\
    Z.of_nat (length top) = n /\
    main fopen qsort path n = Ok (EXIT_SUCCESS (numbered top)).
Proof.
  intros Hopen Hs Hn Hnd Hd.
  destruct (sorted_words path s n Hopen Hs Hd)
    as (words & Hlen & _ & _ & _ & Hres).
  replace (Z.to_nat n - length words) with 0 in Hres by lia.
  exists (take (Z.to_nat n) words).
  assert (Hl : Z.of_nat (length (take (Z.to_nat n) words)) = n)
    by (rewrite length_take; lia).
  split; [by rewrite Hres, app_nil_r|]. split; [done|].
  rewrite main_positive by done. rewrite Hres. cbn [bind].
  rewrite (print_words_spec _ 0) by (cbn [replicate]; lia). done.
Qed.

(** X20.  With fewer than [n] distinct words (and at most 10000) in a file
    of at most [INT_MAX] characters, [find_frequent_words] writes one cell
    for each distinct word and leaves the other cells of the array as they
    came from [malloc], and [main] uses the first of those. *)
Theorem main_uses_unwritten_cell (path : string) (s : list ascii) (n : Z) :
  fopen path = Some s -> (Z.of_nat (length s) <= INT_MAX)%Z ->
  (Z.of_nat (distinct_words s) < n)%Z ->
  (Z.of_nat (distinct_words s) <= HASH_TABLE_SIZE)%Z ->
  exists words,
    length words = distinct_words s /\
    find_frequent_words fopen qsort path n =
      Ok (Some (map Str words
                  ++ replicate (Z.to_nat n - distinct_words s) Indeterminate)) /\
    main fopen qsort path n = Fault (Indeterminate_read (distinct_words s)).
Proof.
  intros Hopen Hs Hn Hd.
  destruct (sorted_words path s n Hopen Hs Hd)
    as (words & Hlen & _ & _ & _ & Hres).
  rewrite take_ge, Hlen in Hres by lia.
  exists words. split; [done|]. split; [done|].
  rewrite main_positive by lia. rewrite Hres. cbn [bind].
  rewrite (print_words_spec _ (Z.to_nat n - distinct_words s)) by lia.
  destruct (Z.to_nat n - distinct_words s) eqn:E; [lia|]. by rewrite Hlen.
Qed.

End Result.

(** X21.  With more than 10000 distinct words in a file of at most
    [INT_MAX] characters, [find_frequent_words] writes past the end of
    [word_linked_list], which has 10000 cells, whatever [n] is. *)
Theorem more_than_10000_words_overrun (fopen : string -> option (list ascii))
  (qsort : (WordFreqNode -> WordFreqNode -> Z) -> list WordFreqNode -> list WordFreqNode)
  (path : string) (s : list ascii) (n : Z) :
  fopen path = Some s -> (Z.of_nat (length s) <= INT_MAX)%Z ->
  (HASH_TABLE_SIZE < Z.of_nat (distinct_words s))%Z ->
  find_frequent_words fopen qsort path n =
  Fault (Word_list_overrun (Z.to_nat HASH_TABLE_SIZE)).
Proof.
  intros Hopen Hs Hd.
  destruct (read_file_inv s Hs) as (table & Hr & Hinv).
  pose proof (length_entries_distinct _ _ (table_inv_counts _ _ Hinv)) as Hlen.
  fold (distinct_words s) in Hlen.
  unfold find_frequent_words. rewrite Hopen, Hr. cbn [bind].
  rewrite collect_spec by apply Hinv.
  by rewrite decide_False by lia.
Qed.

(** ** A text with 10648 distinct words *)

Lemma three_letter_words_elem (w : list ascii) :
  w ∈ three_letter_words ->
  exists a b c, w = [a; b; c] /\ a ∈ letters_22 /\ b ∈ letters_22 /\ c ∈ letters_22.
Proof.
  unfold three_letter_words. intros Hw.
  apply list_elem_of_bind in Hw as (a & Hw & Ha).
  apply list_elem_of_bind in Hw as (b & Hw & Hb).
  apply list_elem_of_bind in Hw as (c & Hw & Hc).
  apply list_elem_of_singleton in Hw. by exists a, b, c.
Qed.

Lemma three_letter_words_stored : Forall stored_word three_letter_words.
Proof.
  apply Forall_forall. intros w Hw.
  apply three_letter_words_elem in Hw as (a & b & c & -> & Ha & Hb & Hc).
  apply (subseteq_take 22) in Ha, Hb, Hc.
  split; [|cbn; unfold WORD_BUFFER_SIZE; lia].
  split; [done|].
  constructor; [by left|]. constructor; [by left|]. constructor.
Qed.

Lemma three_letter_words_NoDup : NoDup three_letter_words.
Proof.
  assert (Hl : NoDup letters_22) by (apply (bool_decide_unpack _); by vm_compute).
  unfold three_letter_words.
  apply NoDup_bind; [| |done].
  - intros a a' w _ _ Hw Hw'.
    apply list_elem_of_bind in Hw as (b & Hw & _).
    apply list_elem_of_bind in Hw as (c & Hw & _).
    apply list_elem_of_bind in Hw' as (b' & Hw' & _).
    apply list_elem_of_bind in Hw' as (c' & Hw' & _).
    apply list_elem_of_singleton in Hw, Hw'. congruence.
  - intros a _. apply NoDup_bind; [| |done].
    + intros b b' w _ _ Hw Hw'.
      apply list_elem_of_bind in Hw as (c & Hw & _).
      apply list_elem_of_bind in Hw' as (c' & Hw' & _).
      apply list_elem_of_singleton in Hw, Hw'. congruence.
    + intros b _. apply NoDup_bind; [| |done].
      * intros c c' w _ _ Hw Hw'.
        apply list_elem_of_singleton in Hw, Hw'. congruence.
      * intros c _. apply NoDup_singleton.
Qed.

Lemma length_remove_dups_NoDup {A} `{EqDecision A} (l : list A) :
  NoDup l -> length (remove_dups l) = length l.
Proof.
  intros Hl. apply Permutation_length, NoDup_Permutation;
    [apply NoDup_remove_dups | done | apply elem_of_remove_dups].
Qed.

Lemma distinct_words_big_text : distinct_words big_text = 22 * 22 * 22.
Proof.
  unfold distinct_words, big_text.
  rewrite counted_words_spaced by apply three_letter_words_stored.
  rewrite length_remove_dups_NoDup by apply three_letter_words_NoDup.
  by vm_compute.
Qed.

(** ** The theorems above at concrete inputs *)

Lemma add_word_stays_in_table_witness :
  length (replicate (Z.to_nat HASH_TABLE_SIZE) ([] : list WordFreqNode))
    = Z.to_nat HASH_TABLE_SIZE /\
  ((exists table',
      add_word (replicate (Z.to_nat HASH_TABLE_SIZE) []) (text "rain") = Ok table' /\
      length table' = Z.to_nat HASH_TABLE_SIZE) \/
   add_word (replicate (Z.to_nat HASH_TABLE_SIZE) []) (text "rain")
     = Fault Signed_overflow).
Proof.
  assert (H1 : length (replicate (Z.to_nat HASH_TABLE_SIZE) ([] : list WordFreqNode))
               = Z.to_nat HASH_TABLE_SIZE) by apply length_replicate.
  exact (conj H1 (proj1 (add_word_stays_in_table _ (text "rain") H1))).
Defined.

Lemma read_file_stays_in_buffer_witness :
  length (replicate WORD_BUFFER_SIZE "x"%char) = WORD_BUFFER_SIZE /\
  read_file_from (replicate WORD_BUFFER_SIZE "x"%char) (text "Rain, rain")
    = read_file (text "Rain, rain").
Proof.
  assert (H1 : length (replicate WORD_BUFFER_SIZE "x"%char) = WORD_BUFFER_SIZE)
    by apply length_replicate.
  exact (conj H1 (proj1 (read_file_stays_in_buffer _ (text "Rain, rain") H1))).
Defined.

Lemma add_word_counts_one_more_witness :
  add_words [text "rain"] (replicate (Z.to_nat HASH_TABLE_SIZE) [])
    = Ok (table_of (text "rain")) /\
  (Z.of_nat (length [text "rain"]) < INT_MAX)%Z /\
  exists table',
    add_word (table_of (text "rain")) (text "go") = Ok table' /\
    count_of table' (text "go") = (count_of (table_of (text "rain")) (text "go") + 1)%Z /\
    (forall w', w' <> text "go" ->
       count_of table' w' = count_of (table_of (text "rain")) w') /\
    counts_exactly table' ([text "rain"] ++ [text "go"]).
Proof.
  assert (H1 : add_words [text "rain"] (replicate (Z.to_nat HASH_TABLE_SIZE) [])
               = Ok (table_of (text "rain"))) by (by vm_compute).
  assert (H2 : (Z.of_nat (length [text "rain"]) < INT_MAX)%Z) by (by vm_compute).
  exact (conj H1 (conj H2 (add_word_counts_one_more _ _ (text "go") H1 H2))).
Defined.

Lemma stored_words_are_well_formed_witness :
  (Z.of_nat (length (text "Rain")) <= INT_MAX)%Z /\
  read_file (text "Rain") = Ok (table_of (text "Rain")) /\
  create_WordFreqNode (text "rain") ∈ entries (table_of (text "Rain")) /\
  stored_word (word (create_WordFreqNode (text "rain"))) /\
  (1 <= count (create_WordFreqNode (text "rain")) <= Z.of_nat (length (text "Rain")))%Z.
Proof.
  assert (H1 : (Z.of_nat (length (text "Rain")) <= INT_MAX)%Z) by (by vm_compute).
  assert (H2 : read_file (text "Rain") = Ok (table_of (text "Rain")))
    by (by vm_compute).
  assert (H3 : create_WordFreqNode (text "rain") ∈ entries (table_of (text "Rain"))).
  { replace (entries (table_of (text "Rain"))) with [create_WordFreqNode (text "rain")]
      by (by vm_compute). left. }
  exact (conj H1 (conj H2 (conj H3 (stored_words_are_well_formed _ _ _ H1 H2 H3)))).
Defined.

Lemma compare_by_frequency_is_sound_witness :
  (Z.of_nat (length (text "go, go away")) <= INT_MAX)%Z /\
  read_file (text "go, go away") = Ok (table_of (text "go, go away")) /\
  {| word := text "go"; count := 2 |} ∈ entries (table_of (text "go, go away")) /\
  {| word := text "away"; count := 1 |} ∈ entries (table_of (text "go, go away")) /\
  ((compare_by_frequency {| word := text "go"; count := 2 |}
                         {| word := text "away"; count := 1 |} < 0)%Z <->
   (count {| word := text "away"; count := 1 |}
    < count {| word := text "go"; count := 2 |})%Z).
Proof.
  assert (H1 : (Z.of_nat (length (text "go, go away")) <= INT_MAX)%Z)
    by (by vm_compute).
  assert (H2 : read_file (text "go, go away") = Ok (table_of (text "go, go away")))
    by (by vm_compute).
  assert (H3 : {| word := text "go"; count := 2 |}
               ∈ entries (table_of (text "go, go away"))).
  { apply list_elem_of_In. vm_compute. tauto. }
  assert (H4 : {| word := text "away"; count := 1 |}
               ∈ entries (table_of (text "go, go away"))).
  { apply list_elem_of_In. vm_compute. tauto. }
  exact (conj H1 (conj H2 (conj H3 (conj H4
    (proj1 (proj2 (compare_by_frequency_is_sound _ _ _ _ H1 H2 H3 H4))))))).
Defined.

Lemma no_letters_no_words_witness :
  one_file (text "12, 34!") "digits.txt" = Some (text "12, 34!") /\
  Forall (fun c => isalpha c = false) (text "12, 34!") /\
  (0 < 3)%Z /\
  read_file (text "12, 34!") = Ok (replicate (Z.to_nat HASH_TABLE_SIZE) []) /\
  find_frequent_words (one_file (text "12, 34!")) (@insertion_sort _) "digits.txt" 3
    = Ok (Some (replicate (Z.to_nat 3) Indeterminate)).
Proof.
  assert (H1 : one_file (text "12, 34!") "digits.txt" = Some (text "12, 34!"))
    by reflexivity.
  assert (H2 : Forall (fun c => isalpha c = false) (text "12, 34!"))
    by (repeat constructor).
  assert (H3 : (0 < 3)%Z) by lia.
  exact (conj H1 (conj H2 (conj H3
    (no_letters_no_words _ (@insertion_sort _) "digits.txt" _ 3 H1 H2 H3)))).
Defined.

Lemma read_file_ignores_case_witness :
  map tolower (text "Rain, RAIN") = map tolower (text "rain, rain") /\
  read_file (text "Rain, RAIN") = read_file (text "rain, rain").
Proof.
  assert (H1 : map tolower (text "Rain, RAIN") = map tolower (text "rain, rain"))
    by (by vm_compute).
  exact (conj H1 (read_file_ignores_case _ _ H1)).
Defined.

Lemma spaced_words_are_read_back_witness :
  Forall stored_word [text "rain"; text "don't"] /\
  counted_words (spaced [text "rain"; text "don't"]) = [text "rain"; text "don't"] /\
  read_file (spaced [text "rain"; text "don't"])
    = add_words [text "rain"; text "don't"] (replicate (Z.to_nat HASH_TABLE_SIZE) []).
Proof.
  assert (H1 : Forall stored_word [text "rain"; text "don't"]).
  { repeat (constructor;
      [split; [split; [apply list_elem_of_In; vm_compute; tauto|]
              | vm_compute; lia];
       repeat (constructor;
         [first [by right | left; apply list_elem_of_In; vm_compute; tauto]|]);
       constructor|]).
    constructor. }
  exact (conj H1 (spaced_words_are_read_back _ H1)).
Defined.

Lemma counts_ignore_word_order_witness :
  (Z.of_nat (length (text "go away")) <= INT_MAX)%Z /\
  (Z.of_nat (length (text "Away, go!")) <= INT_MAX)%Z /\
  Permutation (counted_words (text "go away")) (counted_words (text "Away, go!")) /\
  exists table table',
    read_file (text "go away") = Ok table /\
    read_file (text "Away, go!") = Ok table' /\
    forall w, count_of table w = count_of table' w.
Proof.
  assert (H1 : (Z.of_nat (length (text "go away")) <= INT_MAX)%Z) by (by vm_compute).
  assert (H2 : (Z.of_nat (length (text "Away, go!")) <= INT_MAX)%Z) by (by vm_compute).
  assert (H3 : Permutation (counted_words (text "go away"))
                           (counted_words (text "Away, go!"))).
  { replace (counted_words (text "go away")) with [text "go"; text "away"]
      by (by vm_compute).
    replace (counted_words (text "Away, go!")) with [text "away"; text "go"]
      by (by vm_compute).
    apply perm_swap. }
  exact (conj H1 (conj H2 (conj H3 (counts_ignore_word_order _ _ H1 H2 H3)))).
Defined.

Lemma find_frequent_words_top_n_witness :
  two_files "rain.txt" = Some (text "Rain, rain, go away! Don't come again.") /\
  (Z.of_nat (length (text "Rain, rain, go away! Don't come again.")) <= INT_MAX)%Z /\
  (0 < 3)%Z /\
  (3 <= Z.of_nat (distinct_words (text "Rain, rain, go away! Don't come again.")))%Z /\
  (Z.of_nat (distinct_words (text "Rain, rain, go away! Don't come again."))
   <= HASH_TABLE_SIZE)%Z /\
  exists top,
    find_frequent_words two_files (@insertion_sort _) "rain.txt" 3
      = Ok (Some (map Str top)) /\
    Z.of_nat (length top) = 3%Z /\
    NoDup top /\
    (forall t, t ∈ top ->
       t ∈ counted_words (text "Rain, rain, go away! Don't come again.")) /\
    (forall i j a b, i < j -> top !! i = Some a -> top !! j = Some b ->
       occurrences b (counted_words (text "Rain, rain, go away! Don't come again."))
       <= occurrences a (counted_words (text "Rain, rain, go away! Don't come again."))) /\
    (forall t w, t ∈ top ->
       w ∈ counted_words (text "Rain, rain, go away! Don't come again.") -> w ∉ top ->
       occurrences w (counted_words (text "Rain, rain, go away! Don't come again."))
       <= occurrences t (counted_words (text "Rain, rain, go away! Don't come again."))).
Proof.
  assert (H1 : two_files "rain.txt"
               = Some (text "Rain, rain, go away! Don't come again.")) by reflexivity.
  assert (H2 : (Z.of_nat (length (text "Rain, rain, go away! Don't come again."))
                <= INT_MAX)%Z) by (by vm_compute).
  assert (H3 : (0 < 3)%Z) by lia.
  assert (H4 : (3 <= Z.of_nat (distinct_words
                  (text "Rain, rain, go away! Don't come again.")))%Z)
    by (by vm_compute).
  assert (H5 : (Z.of_nat (distinct_words
                  (text "Rain, rain, go away! Don't come again."))
                <= HASH_TABLE_SIZE)%Z) by (by vm_compute).
  exact (conj H1 (conj H2 (conj H3 (conj H4 (conj H5
    (find_frequent_words_top_n two_files (@insertion_sort _) insertion_sort_contract
       "rain.txt" _ 3 H1 H2 H3 H4 H5)))))).
Defined.

Lemma main_prints_top_n_witness :
  two_files "rain.txt" = Some (text "Rain, rain, go away! Don't come again.") /\
  (Z.of_nat (length (text "Rain, rain, go away! Don't come again.")) <= INT_MAX)%Z /\
  (0 < 1)%Z /\
  (1 <= Z.of_nat (distinct_words (text "Rain, rain, go away! Don't come again.")))%Z /\
  (Z.of_nat (distinct_words (text "Rain, rain, go away! Don't come again."))
   <= HASH_TABLE_SIZE)%Z /\
  exists top,
    find_frequent_words two_files (@insertion_sort _) "rain.txt" 1
      = Ok (Some (map Str top)) /\
    Z.of_nat (length top) = 1%Z /\
    main two_files (@insertion_sort _) "rain.txt" 1 = Ok (EXIT_SUCCESS (numbered top)).
Proof.
  assert (H1 : two_files "rain.txt"
               = Some (text "Rain, rain, go away! Don't come again.")) by reflexivity.
  assert (H2 : (Z.of_nat (length (text "Rain, rain, go away! Don't come again."))
                <= INT_MAX)%Z) by (by vm_compute).
  assert (H3 : (0 < 1)%Z) by lia.
  assert (H4 : (1 <= Z.of_nat (distinct_words
                  (text "Rain, rain, go away! Don't come again.")))%Z)
    by (by vm_compute).
  assert (H5 : (Z.of_nat (distinct_words
                  (text "Rain, rain, go away! Don't come again."))
                <= HASH_TABLE_SIZE)%Z) by (by vm_compute).
  exact (conj H1 (conj H2 (conj H3 (conj H4 (conj H5
    (main_prints_top_n two_files (@insertion_sort _) insertion_sort_contract
       "rain.txt" _ 1 H1 H2 H3 H4 H5)))))).
Defined.

Lemma main_uses_unwritten_cell_witness :
  two_files "rain.txt" = Some (text "Rain, rain, go away! Don't come again.") /\
  (Z.of_nat (length (text "Rain, rain, go away! Don't come again.")) <= INT_MAX)%Z /\
  (Z.of_nat (distinct_words (text "Rain, rain, go away! Don't come again.")) < 10)%Z /\
  (Z.of_nat (distinct_words (text "Rain, rain, go away! Don't come again."))
   <= HASH_TABLE_SIZE)%Z /\
  exists words,
    length words = distinct_words (text "Rain, rain, go away! Don't come again.") /\
    find_frequent_words two_files (@insertion_sort _) "rain.txt" 10 =
      Ok (Some (map Str words
                  ++ replicate
                       (Z.to_nat 10
                        - distinct_words (text "Rain, rain, go away! Don't come again."))
                       Indeterminate)) /\
    main two_files (@insertion_sort _) "rain.txt" 10 =
      Fault (Indeterminate_read
               (distinct_words (text "Rain, rain, go away! Don't come again."))).
Proof.
  assert (H1 : two_files "rain.txt"
               = Some (text "Rain, rain, go away! Don't come again.")) by reflexivity.
  assert (H2 : (Z.of_nat (length (text "Rain, rain, go away! Don't come again."))
                <= INT_MAX)%Z) by (by vm_compute).
  assert (H3 : (Z.of_nat (distinct_words
                  (text "Rain, rain, go away! Don't come again.")) < 10)%Z)
    by (by vm_compute).
  assert (H4 : (Z.of_nat (distinct_words
                  (text "Rain, rain, go away! Don't come again."))
                <= HASH_TABLE_SIZE)%Z) by (by vm_compute).
  exact (conj H1 (conj H2 (conj H3 (conj H4
    (main_uses_unwritten_cell two_files (@insertion_sort _) insertion_sort_contract
       "rain.txt" _ 10 H1 H2 H3 H4))))).
Defined.

Lemma more_than_10000_words_overrun_witness :
  one_file big_text "words.txt" = Some big_text /\
  (Z.of_nat (length big_text) <= INT_MAX)%Z /\
  (HASH_TABLE_SIZE < Z.of_nat (distinct_words big_text))%Z /\
  find_frequent_words (one_file big_text) (@insertion_sort _) "words.txt" 5 =
  Fault (Word_list_overrun (Z.to_nat HASH_TABLE_SIZE)).
Proof.
  assert (H1 : one_file big_text "words.txt" = Some big_text) by reflexivity.
  assert (H2 : (Z.of_nat (length big_text) <= INT_MAX)%Z) by (by vm_compute).
  assert (H3 : (HASH_TABLE_SIZE < Z.of_nat (distinct_words big_text))%Z)
    by (rewrite distinct_words_big_text; by vm_compute).
  exact (conj H1 (conj H2 (conj H3
    (more_than_10000_words_overrun _ (@insertion_sort _) "words.txt" _ 5 H1 H2 H3)))).
Defined.

End WordsMoreFacts.
